(** * shortuuid: a base-62 short-identifier codec, embedded in Rocq

    The development follows the Go package [shortuuid]:
    - [Radix]: positional numerals over [Z], the arithmetic that
      [math/big] and the conversion loops of the package share;
    - [Go]: the parts of the Go runtime and of the libraries the package
      calls ([string]/[[]byte]/[[]rune] conversions, [math/big],
      [fmt], [strings], [github.com/google/uuid]);
    - [Shortuuid]: the package of [shortuuid.go];
    - [ShortuuidHex]: the second text of the package, carried after the
      tests in [shortuuid_test.go], whose UUID functions go through the
      hexadecimal rendering of the UUID;
    - the theorems. *)

From Stdlib Require Import ZArith List Bool Lia.
From Stdlib Require Import Strings.String Strings.Ascii Strings.Byte.
Import ListNotations.

Local Open Scope Z_scope.

(** ** Positional numerals *)

Module Radix.

Section Numerals.

(** The base of the numeral system: 62 for short IDs, 256 for the bytes
    of a big integer, 16 for its hexadecimal text, 10 for [%d]. *)
Variable b : Z.

(** Value of a most-significant-first list of digits, computed the way
    the decoding loops do: [acc = acc * b + d] for each digit. *)
Definition horner (acc : Z) (ds : list Z) : Z :=
  fold_left (fun a d => a * b + d) ds acc.

Definition undigits (ds : list Z) : Z := horner 0 ds.

(** Repeated division: while [n > 0], the remainder is put in front of
    the digits collected so far and [n] becomes the quotient.  [fuel]
    bounds the number of iterations. *)
Fixpoint digits_loop (fuel : nat) (n : Z) (acc : list Z) : list Z :=
  match fuel with
  | O => acc
  | S fuel' =>
      if 0 <? n
      then digits_loop fuel' (n / b) (n mod b :: acc)
      else acc
  end.

(** Enough iterations for [n]: one more than the position of its
    highest bit, since every division at least halves [n]. *)
Definition steps (n : Z) : nat := S (Z.to_nat (Z.log2 n)).

Definition digits (n : Z) : list Z := digits_loop (steps n) n [].

(** A canonical numeral: digits in range, no leading zero digit. *)
Definition in_range (ds : list Z) : Prop := Forall (fun d => 0 <= d < b) ds.

Definition canonical (ds : list Z) : Prop :=
  in_range ds /\ (forall d ds', ds = d :: ds' -> d <> 0).

(** Dropping the leading zero digits. *)
Fixpoint trim (ds : list Z) : list Z :=
  match ds with
  | [] => []
  | d :: ds' => if d =? 0 then trim ds' else ds
  end.

End Numerals.

End Radix.

(** ** The Go runtime and libraries, as far as the package uses them *)

Module Go.

(** A [rune] is a code point (an [int32]); a [byte] is a [Byte.byte]; a Go
    [string] is a sequence of bytes, here a [string] of 8-bit [ascii]. *)
Definition rune := Z.

Definition byte_val (c : byte) : Z := Z.of_N (Byte.to_N c).

(** The conversion [byte(x)], which keeps the low eight bits. *)
Definition byte_of (z : Z) : byte :=
  match Byte.of_N (Z.to_N (z mod 256)) with
  | Some c => c
  | None => x00
  end.

(** [[]byte(s)] and [string(bytes)]. *)
Definition bytes_of_string (s : string) : list byte := list_byte_of_string s.
Definition string_of_bytes (bs : list byte) : string := string_of_list_byte bs.

(** *** UTF-8 *)

Definition RuneError : rune := 0xFFFD.

(** [utf8.AppendRune]: also the conversion [string(r)] and the verb [%c]. *)
Definition utf8_encode (r : rune) : list byte :=
  if (0 <=? r) && (r <=? 0x7F) then [byte_of r]
  else if (0 <=? r) && (r <=? 0x7FF) then
    [byte_of (Z.lor 0xC0 (Z.shiftr r 6)); byte_of (Z.lor 0x80 (Z.land r 0x3F))]
  else if (r <? 0) || (0x10FFFF <? r) || ((0xD800 <=? r) && (r <=? 0xDFFF)) then
    [xef; xbf; xbd]
  else if r <=? 0xFFFF then
    [byte_of (Z.lor 0xE0 (Z.shiftr r 12));
     byte_of (Z.lor 0x80 (Z.land (Z.shiftr r 6) 0x3F));
     byte_of (Z.lor 0x80 (Z.land r 0x3F))]
  else
    [byte_of (Z.lor 0xF0 (Z.shiftr r 18));
     byte_of (Z.lor 0x80 (Z.land (Z.shiftr r 12) 0x3F));
     byte_of (Z.lor 0x80 (Z.land (Z.shiftr r 6) 0x3F));
     byte_of (Z.lor 0x80 (Z.land r 0x3F))].

(** [string(rs)] for a slice of runes. *)
Definition string_of_runes (rs : list rune) : string :=
  string_of_bytes (flat_map utf8_encode rs).

(** The table [first] of package [utf8] for a leading byte of a
    multi-byte sequence: its length and the range accepted for the second
    byte; [None] for a byte that cannot start a sequence. *)
Definition utf8_first (s0 : Z) : option (Z * Z * Z) :=
  if (s0 <? 0xC2) || (0xF4 <? s0) then None
  else if s0 <=? 0xDF then Some (2, 0x80, 0xBF)
  else if s0 =? 0xE0 then Some (3, 0xA0, 0xBF)
  else if s0 =? 0xED then Some (3, 0x80, 0x9F)
  else if s0 <=? 0xEF then Some (3, 0x80, 0xBF)
  else if s0 =? 0xF0 then Some (4, 0x90, 0xBF)
  else if s0 =? 0xF4 then Some (4, 0x80, 0x8F)
  else Some (4, 0x80, 0xBF).

Definition continuation (c : Z) : bool := (0x80 <=? c) && (c <=? 0xBF).

(** The runes that [for _, r := range s] yields, over the byte values of
    [s]: an invalid or truncated sequence yields [RuneError] and advances
    by one byte. *)
Fixpoint decode_runes (s : list Z) : list rune :=
  match s with
  | [] => []
  | s0 :: t1 =>
      if s0 <? 0x80 then s0 :: decode_runes t1
      else
        match utf8_first s0 with
        | None => RuneError :: decode_runes t1
        | Some (sz, lo, hi) =>
            match t1 with
            | [] => RuneError :: decode_runes t1
            | s1 :: t2 =>
                if (s1 <? lo) || (hi <? s1) then RuneError :: decode_runes t1
                else if sz <=? 2 then
                  Z.lor (Z.shiftl (Z.land s0 0x1F) 6) (Z.land s1 0x3F)
                  :: decode_runes t2
                else
                  match t2 with
                  | [] => RuneError :: decode_runes t1
                  | s2 :: t3 =>
                      if negb (continuation s2) then RuneError :: decode_runes t1
                      else if sz <=? 3 then
                        Z.lor (Z.shiftl (Z.land s0 0x0F) 12)
                          (Z.lor (Z.shiftl (Z.land s1 0x3F) 6) (Z.land s2 0x3F))
                        :: decode_runes t3
                      else
                        match t3 with
                        | [] => RuneError :: decode_runes t1
                        | s3 :: t4 =>
                            if negb (continuation s3)
                            then RuneError :: decode_runes t1
                            else
                              Z.lor (Z.shiftl (Z.land s0 0x07) 18)
                                (Z.lor (Z.shiftl (Z.land s1 0x3F) 12)
                                   (Z.lor (Z.shiftl (Z.land s2 0x3F) 6)
                                      (Z.land s3 0x3F)))
                              :: decode_runes t4
                        end
                  end
            end
        end
  end.

(** [[]rune(s)], and the sequence a [range] loop over [s] visits. *)
Definition runes_of_string (s : string) : list rune :=
  decode_runes (map byte_val (bytes_of_string s)).

(** A rune below 0x80 is one byte of UTF-8, and is read back as itself. *)
Definition ascii_rune (r : rune) : Prop := 0 <= r < 0x80.

Definition ascii_byte (c : byte) : Prop := byte_val c < 0x80.

(** *** math/big

    A [*big.Int] is an integer of arbitrary size: a [Z].  The package
    allocates every one of them freshly, so values are passed around. *)

Definition big_NewInt (x : Z) : Z := x.

Definition big_Sign (x : Z) : Z := Z.sgn x.

Definition big_Cmp (x y : Z) : Z :=
  match x ?= y with
  | Lt => -1
  | Eq => 0
  | Gt => 1
  end.

Definition big_Mul (x y : Z) : Z := x * y.
Definition big_Add (x y : Z) : Z := x + y.

(** [DivMod] is Euclidean division: the modulus [m] satisfies
    [0 <= m < |y|], and [x = y * q + m]. *)
Definition big_DivMod (x y : Z) : Z * Z :=
  (Z.sgn y * (x / Z.abs y), x mod Z.abs y).

(** [Int64] keeps the low 64 bits, read as a signed number. *)
Definition big_Int64 (x : Z) : Z := (x + 2 ^ 63) mod 2 ^ 64 - 2 ^ 63.

(** [SetBytes] reads a big-endian unsigned integer. *)
Definition big_SetBytes (buf : list byte) : Z :=
  Radix.undigits 256 (map byte_val buf).

(** [Bytes] is the big-endian absolute value, without leading zero bytes:
    no byte at all for zero. *)
Definition big_Bytes (x : Z) : list byte :=
  map byte_of (Radix.digits 256 (Z.abs x)).

(** A list of bytes without its leading zero bytes. *)
Fixpoint strip_zeros (bs : list byte) : list byte :=
  match bs with
  | [] => []
  | c :: bs' => if Byte.eqb c x00 then strip_zeros bs' else bs
  end.

(** The digit a character stands for in [SetString], in bases up to 36. *)
Definition digit_val (c : byte) : option Z :=
  let v := byte_val c in
  if (48 <=? v) && (v <=? 57) then Some (v - 48)
  else if (97 <=? v) && (v <=? 122) then Some (v - 97 + 10)
  else if (65 <=? v) && (v <=? 90) then Some (v - 65 + 10)
  else None.

Fixpoint scan_digits (base : Z) (cs : list byte) : option (list Z) :=
  match cs with
  | [] => Some []
  | c :: cs' =>
      match digit_val c with
      | Some d =>
          if d <? base then option_map (cons d) (scan_digits base cs') else None
      | None => None
      end
  end.

(** An optional sign in front of a number: whether it is a minus, and
    what follows it. *)
Definition scan_sign (cs : list byte) : bool * list byte :=
  match cs with
  | x2d :: rest => (true, rest)
  | x2b :: rest => (false, rest)
  | _ => (false, cs)
  end.

(** [SetString(s, base)] for an explicit [base] from 2 to 36: an optional
    sign, then at least one digit, and nothing else.  [None] stands for
    the result [(nil, false)]. *)
Definition big_SetString (s : string) (base : Z) : option Z :=
  let (neg, body) := scan_sign (bytes_of_string s) in
  match body with
  | [] => None
  | _ =>
      match scan_digits base body with
      | Some ds =>
          let v := Radix.undigits base ds in
          Some (if neg then - v else v)
      | None => None
      end
  end.

Definition lower_digits : list byte :=
  bytes_of_string "0123456789abcdefghijklmnopqrstuvwxyz".

(** [Text(base)]: lower-case digits, ["0"] for zero, a minus sign for a
    negative number. *)
Definition big_Text (x : Z) (base : Z) : string :=
  if x =? 0 then "0"%string
  else
    let body :=
      map (fun d => nth (Z.to_nat d) lower_digits x30) (Radix.digits base (Z.abs x)) in
    string_of_bytes (if x <? 0 then x2d :: body else body).

(** The table [hextable] of [encoding/hex], and the index expression
    [hextable[d]]. *)
Definition hextable : list byte := bytes_of_string "0123456789abcdef".

Definition hex_digit (d : Z) : byte := nth (Z.to_nat d) hextable x30.

(** The bytes of [Text(16)] for a number that is not negative. *)
Definition text16 (x : Z) : list byte :=
  if x =? 0 then [x30] else map hex_digit (Radix.digits 16 x).

(** *** fmt, strings *)

(** [utf8.RuneCountInString]. *)
Definition RuneCount (s : string) : nat := List.length (runes_of_string s).

(** [fmt.Sprintf("%0Ns", s)]: [s] padded on the left with ['0'] up to
    [width] runes. *)
Definition Sprintf_0s (width : nat) (s : string) : string :=
  (string_of_bytes (repeat x30 (width - RuneCount s)) ++ s)%string.

(** [fmt.Sprintf("%d", n)] for an [int]. *)
Definition Sprintf_d (n : Z) : string := big_Text n 10.

(** [fmt.Sprintf("%c", r)]. *)
Definition Sprintf_c (r : rune) : string :=
  string_of_bytes
    (utf8_encode (if (r <? 0) || (0x10FFFF <? r) then RuneError else r)).

(** [strings.ReplaceAll] of a one-byte [old] by the empty string: every
    occurrence of the byte is left out. *)
Definition ReplaceAll_byte_empty (s : string) (old : byte) : string :=
  string_of_bytes
    (filter (fun c => negb (Byte.eqb c old)) (bytes_of_string s)).

(** The slice expression [s[lo:hi]] on a string, within its bounds. *)
Definition slice (s : string) (lo hi : nat) : string := substring lo (hi - lo) s.

(** *** encoding/hex and github.com/google/uuid (v1.6.0) *)

(** [hex.Encode]: two lower-case digits for each byte. *)
Definition hex_Encode (src : list byte) : list byte :=
  flat_map
    (fun v =>
       [hex_digit (Z.shiftr (byte_val v) 4); hex_digit (Z.land (byte_val v) 0x0f)])
    src.

(** The two half-bytes of each byte, high half first. *)
Definition nibbles (src : list byte) : list Z :=
  flat_map (fun v => [Z.shiftr (byte_val v) 4; Z.land (byte_val v) 0x0f]) src.

(** The big-endian form of [x] on [n] bytes, for [x] that fits. *)
Definition be_bytes (n : nat) (x : Z) : list byte :=
  repeat x00 (n - List.length (big_Bytes x)) ++ big_Bytes x.

(** A [uuid.UUID] is a [[16]byte]: a list of bytes of length 16. *)
Definition UUID := list byte.

Definition wf_uuid (u : UUID) : Prop := List.length u = 16%nat.

(** The zero value [uuid.UUID{}], also [uuid.Nil]. *)
Definition Nil : UUID := repeat x00 16.

Definition sub (u : list byte) (lo hi : nat) : list byte :=
  firstn (hi - lo) (skipn lo u).

(** [UUID.String]: the form xxxxxxxx-xxxx-xxxx-xxxx-xxxxxxxxxxxx. *)
Definition uuid_String (u : UUID) : string :=
  string_of_bytes
    (hex_Encode (sub u 0 4) ++ x2d ::
     hex_Encode (sub u 4 6) ++ x2d ::
     hex_Encode (sub u 6 8) ++ x2d ::
     hex_Encode (sub u 8 10) ++ x2d ::
     hex_Encode (sub u 10 16)).

(** [UUID.Version] and [UUID.Variant]. *)
Definition uuid_Version (u : UUID) : Z :=
  Z.shiftr (byte_val (nth 6 u x00)) 4.

Inductive variant := VInvalid | VRFC4122 | VReserved | VMicrosoft | VFuture.

Definition uuid_Variant (u : UUID) : variant :=
  let v := byte_val (nth 8 u x00) in
  if Z.land v 0xc0 =? 0x80 then VRFC4122
  else if Z.land v 0xe0 =? 0xc0 then VMicrosoft
  else if Z.land v 0xe0 =? 0xe0 then VFuture
  else VReserved.

(** The table [xvalues]: the value of a hexadecimal digit, 255 for any
    other byte. *)
Definition xvalue (c : byte) : Z :=
  let v := byte_val c in
  if (48 <=? v) && (v <=? 57) then v - 48
  else if (65 <=? v) && (v <=? 70) then v - 55
  else if (97 <=? v) && (v <=? 102) then v - 87
  else 255.

Definition xtob (x1 x2 : byte) : byte * bool :=
  let b1 := xvalue x1 in
  let b2 := xvalue x2 in
  (byte_of (Z.lor (Z.shiftl b1 4) b2), negb (b1 =? 255) && negb (b2 =? 255)).

(** The errors of [uuid.Parse]. *)
Inductive uuid_error :=
| invalidLengthError (len : nat)
| ErrInvalidUUIDFormat
| URNPrefixError (prefix : string).

(** The pairs of digits at the given offsets, or [None] at the first
    pair that is not hexadecimal. *)
Fixpoint parse_pairs (s : list byte) (offsets : list nat) : option (list byte) :=
  match offsets with
  | [] => Some []
  | x :: rest =>
      let (v, ok) := xtob (nth x s x00) (nth (S x) s x00) in
      if ok then option_map (cons v) (parse_pairs s rest) else None
  end.

Definition plain_offsets : list nat := map (fun i => (2 * i)%nat) (seq 0 16).

Definition hyphenated_offsets : list nat :=
  [0; 2; 4; 6; 9; 11; 14; 16; 19; 21; 24; 26; 28; 30; 32; 34]%nat.

Definition ascii_lower (c : byte) : byte :=
  let v := byte_val c in
  if (65 <=? v) && (v <=? 90) then byte_of (v + 32) else c.

(** [strings.EqualFold(p, "urn:uuid:")]: no letter of the prefix has a
    case variant outside ASCII. *)
Definition is_urn_prefix (p : list byte) : bool :=
  if list_eq_dec Byte.byte_eq_dec (map ascii_lower p) (bytes_of_string "urn:uuid:")
  then true else false.

(** [uuid.Parse]. *)
Definition uuid_Parse (s : string) : UUID + uuid_error :=
  let bs := bytes_of_string s in
  let hyphenated (t : list byte) : UUID + uuid_error :=
    if negb (Byte.eqb (nth 8 t x00) x2d) || negb (Byte.eqb (nth 13 t x00) x2d)
       || negb (Byte.eqb (nth 18 t x00) x2d) || negb (Byte.eqb (nth 23 t x00) x2d)
    then inr ErrInvalidUUIDFormat
    else
      match parse_pairs t hyphenated_offsets with
      | Some u => inl u
      | None => inr ErrInvalidUUIDFormat
      end in
  let n := List.length bs in
  if (n =? 36)%nat then hyphenated bs
  else if (n =? 36 + 9)%nat then
    if is_urn_prefix (firstn 9 bs) then hyphenated (skipn 9 bs)
    else inr (URNPrefixError (string_of_bytes (firstn 9 bs)))
  else if (n =? 36 + 2)%nat then hyphenated (skipn 1 bs)
  else if (n =? 32)%nat then
    match parse_pairs bs plain_offsets with
    | Some u => inl u
    | None => inr ErrInvalidUUIDFormat
    end
  else inr (invalidLengthError n).

Section ErrorText.

(** [strconv.Quote], which the verb [%q] applies to a string.  It
    consults the Unicode tables of the Go distribution, which are not
    reproduced here. *)
Variable Quote : string -> string.

(** The method [Error] of the errors of [uuid.Parse]. *)
Definition uuid_Error (e : uuid_error) : string :=
  match e with
  | invalidLengthError len => "invalid UUID length: " ++ Sprintf_d (Z.of_nat len)
  | ErrInvalidUUIDFormat => "invalid UUID format"
  | URNPrefixError prefix => "invalid urn prefix: " ++ Quote prefix
  end%string.

End ErrorText.

End Go.

(** ** The package of [shortuuid.go] *)

Module Shortuuid.

Import Go.

(** [EncodeError] and [DecodeError], with the text their method [Error]
    gives. *)
Record EncodeError := { UUID : string; EncodeReason : string }.

Record DecodeError := { ShortID : string; Reason : string }.

Definition EncodeError_Error (e : EncodeError) : string :=
  ("encode error for UUID '" ++ UUID e ++ "': " ++ EncodeReason e)%string.

Definition DecodeError_Error (e : DecodeError) : string :=
  ("decode error for short ID '" ++ ShortID e ++ "': " ++ Reason e)%string.

(** A value of the interface [error] that the package returns. *)
Inductive error :=
| EncodeErr (e : EncodeError)
| DecodeErr (e : DecodeError).

(** A pair [(value, error)] of which exactly one part is meaningful. *)
Inductive outcome (A : Type) :=
| Ok (a : A)
| Err (e : error).

Arguments Ok {A} a.
Arguments Err {A} e.

Definition defaultBase62 : list rune :=
  Eval vm_compute in
  runes_of_string "0123456789ABCDEFGHIJKLMNOPQRSTUVWXYZabcdefghijklmnopqrstuvwxyz".

(** [len(defaultBase62)] as an [int64]. *)
Definition base : Z := big_NewInt (Z.of_nat (List.length defaultBase62)).

(** The index expression [defaultBase62[i]]; an index out of range
    panics in Go, and is given the rune 0 here (see [intToBase_index]). *)
Definition at_index (i : Z) : rune :=
  if (0 <=? i) && (i <? Z.of_nat (List.length defaultBase62))
  then nth (Z.to_nat i) defaultBase62 0
  else 0.

(** The loop of [intToBase]: while [n > 0], divide [n] by the base and
    put the symbol of the remainder before [result]. *)
Fixpoint intToBase_loop (fuel : nat) (n : Z) (result : list rune) : list rune :=
  match fuel with
  | O => result
  | S fuel' =>
      if big_Cmp n (big_NewInt 0) >? 0 then
        let (q, remainder) := big_DivMod n base in
        intToBase_loop fuel' q ([at_index (big_Int64 remainder)] ++ result)
      else result
  end.

Definition intToBase (num : Z) : string :=
  if big_Sign num =? 0 then string_of_runes [at_index 0]
  else string_of_runes (intToBase_loop (Radix.steps num) num []).

(** The inner loop of [baseToInt]: the index of [char] in the alphabet,
    or [-1]. *)
Fixpoint find_index (char : rune) (alphabet : list rune) (i : Z) : Z :=
  match alphabet with
  | [] => -1
  | alphabetChar :: rest =>
      if char =? alphabetChar then i else find_index char rest (i + 1)
  end.

(** The outer loop of [baseToInt], over the runes of [encoded] still to
    be read. *)
Fixpoint baseToInt_loop (encoded : string) (chars : list rune) (result : Z)
    : outcome Z :=
  match chars with
  | [] => Ok result
  | char :: rest =>
      let index := find_index char defaultBase62 0 in
      if index =? -1 then
        Err (DecodeErr
               {| ShortID := encoded;
                  Reason := "contains invalid character '" ++ Sprintf_c char
                            ++ "' not found in alphabet" |})
      else
        baseToInt_loop encoded rest
          (big_Add (big_Mul result base) (big_NewInt index))
  end.

Definition baseToInt (encoded : string)   : outcome Z :=
  baseToInt_loop encoded (runes_of_string encoded) (big_NewInt 0).

Definition encode (input : string) : outcome string :=
  if String.eqb input EmptyString then
    Err (EncodeErr {| UUID := input;
                      EncodeReason := "input string cannot be empty" |})
  else
    let bytes := bytes_of_string input in
    let num := big_SetBytes bytes in
    Ok (intToBase num).

Definition decode (shortID : string) : outcome string :=
  match baseToInt shortID with
  | Err err => Err err
  | Ok num =>
      let bytes := big_Bytes num in
      Ok (string_of_bytes bytes)
  end.

Definition Shorten (input : string) : outcome string := encode input.

Definition Expand (shortID : string) : outcome string := decode shortID.

Definition ShortenUUID (u : Go.UUID) : outcome string := Shorten (uuid_String u).

Section WithQuote.

Variable Quote : string -> string.

Definition ExpandUUID (shortID : string) : outcome Go.UUID :=
  match Expand shortID with
  | Err err => Err err
  | Ok uuidStr =>
      match uuid_Parse uuidStr with
      | inr err =>
          Err (DecodeErr
                 {| ShortID := shortID;
                    Reason := "failed to parse expanded UUID: "
                              ++ uuid_Error Quote err |})
      | inl parsedUUID => Ok parsedUUID
      end
  end.

End WithQuote.

(** Sequencing of two fallible calls, for statements about round trips. *)
Definition and_then {A B} (r : outcome A) (f : A -> outcome B) : outcome B :=
  match r with
  | Ok a => f a
  | Err e => Err e
  end.

End Shortuuid.

(** ** The second text of the package

    [shortuuid_test.go] carries, after the tests, a further text of the
    package (its lines 742 to 955).  Its string functions are those of
    [shortuuid.go] under other names; its UUID functions go through the 32
    hexadecimal digits of the UUID instead of its 36 characters. *)

Module ShortuuidHex.

Import Go.

Record EncodeError := { Input : string; EncodeReason : string }.

Record DecodeError := { ShortID : string; Reason : string }.

Definition EncodeError_Error (e : EncodeError) : string :=
  ("encode error for input '" ++ Input e ++ "': " ++ EncodeReason e)%string.

Definition DecodeError_Error (e : DecodeError) : string :=
  ("decode error for short ID '" ++ ShortID e ++ "': " ++ Reason e)%string.

Inductive error :=
| EncodeErr (e : EncodeError)
| DecodeErr (e : DecodeError).

Inductive outcome (A : Type) :=
| Ok (a : A)
| Err (e : error).

Arguments Ok {A} a.
Arguments Err {A} e.

Definition defaultBase62 : list rune :=
  Eval vm_compute in
  runes_of_string "0123456789ABCDEFGHIJKLMNOPQRSTUVWXYZabcdefghijklmnopqrstuvwxyz".

Definition base : Z := big_NewInt (Z.of_nat (List.length defaultBase62)).

Definition at_index (i : Z) : rune :=
  if (0 <=? i) && (i <? Z.of_nat (List.length defaultBase62))
  then nth (Z.to_nat i) defaultBase62 0
  else 0.

Fixpoint intToBase_loop (fuel : nat) (n : Z) (result : list rune) : list rune :=
  match fuel with
  | O => result
  | S fuel' =>
      if big_Cmp n (big_NewInt 0) >? 0 then
        let (q, remainder) := big_DivMod n base in
        intToBase_loop fuel' q ([at_index (big_Int64 remainder)] ++ result)
      else result
  end.

Definition intToBase (num : Z) : string :=
  if big_Sign num =? 0 then string_of_runes [at_index 0]
  else string_of_runes (intToBase_loop (Radix.steps num) num []).

Fixpoint find_index (char : rune) (alphabet : list rune) (i : Z) : Z :=
  match alphabet with
  | [] => -1
  | alphabetChar :: rest =>
      if char =? alphabetChar then i else find_index char rest (i + 1)
  end.

Fixpoint baseToInt_loop (encoded : string) (chars : list rune) (result : Z)
  : outcome Z :=
  match chars with
  | [] => Ok result
  | char :: rest =>
      let index := find_index char defaultBase62 0 in
      if index =? -1 then
        Err (DecodeErr
               {| ShortID := encoded;
                  Reason := "invalid character '" ++ Sprintf_c char
                            ++ "' in short ID (valid characters: 0-9, A-Z, a-z)" |})
      else
        baseToInt_loop encoded rest
          (big_Add (big_Mul result base) (big_NewInt index))
  end.

Definition baseToInt (encoded : string) : outcome Z :=
  baseToInt_loop encoded (runes_of_string encoded) (big_NewInt 0).

Definition encodeString (input : string) : outcome string :=
  if String.eqb input EmptyString then
    Err (EncodeErr {| Input := input;
                      EncodeReason := "input string cannot be empty" |})
  else
    let bytes := bytes_of_string input in
    let num := big_SetBytes bytes in
    Ok (intToBase num).

Definition decodeString (shortID : string) : outcome string :=
  match baseToInt shortID with
  | Err err => Err err
  | Ok num =>
      let bytes := big_Bytes num in
      Ok (string_of_bytes bytes)
  end.

(** [encodeHex] drops the success flag of [SetString].  After a failed
    [SetString] the value of the receiver is not specified by
    [math/big]; it is taken to be zero here.  [ShortenUUID] only passes 32
    hexadecimal digits, which always parse. *)
Definition encodeHex (hexStr : string) : outcome string :=
  let num :=
    match big_SetString hexStr 16 with
    | Some v => v
    | None => 0
    end in
  Ok (intToBase num).

Definition decodeHex (shortID : string) : outcome string :=
  match baseToInt shortID with
  | Err err => Err err
  | Ok num =>
      let hexStr := Sprintf_0s 32 (big_Text num 16) in
      Ok hexStr
  end.

Definition Shorten (input : string) : outcome string := encodeString input.

Definition Expand (shortID : string) : outcome string := decodeString shortID.

Definition ShortenUUID (u : Go.UUID) : outcome string :=
  let uuidStr := uuid_String u in
  if String.eqb uuidStr EmptyString then
    Err (EncodeErr {| Input := uuidStr;
                      EncodeReason := "UUID string cannot be empty" |})
  else
    let cleanUUID := ReplaceAll_byte_empty uuidStr x2d in
    encodeHex cleanUUID.

(** [fmt.Sprintf("%s-%s-%s-%s-%s", hexStr[0:8], hexStr[8:12],
    hexStr[12:16], hexStr[16:20], hexStr[20:32])]. *)
Definition hyphenate (hexStr : string) : string :=
  (slice hexStr 0 8 ++ "-" ++ slice hexStr 8 12 ++ "-"
   ++ slice hexStr 12 16 ++ "-" ++ slice hexStr 16 20 ++ "-"
   ++ slice hexStr 20 32)%string.

Section WithQuote.

Variable Quote : string -> string.

Definition ExpandUUID (shortID : string) : outcome Go.UUID :=
  match decodeHex shortID with
  | Err err => Err err
  | Ok hexStr =>
      if negb (String.length hexStr =? 32)%nat then
        Err (DecodeErr
               {| ShortID := shortID;
                  Reason := "decoded to invalid length: expected 32 hex characters, got "
                            ++ Sprintf_d (Z.of_nat (String.length hexStr)) |})
      else
        let uuidStr := hyphenate hexStr in
        match uuid_Parse uuidStr with
        | inr err =>
            Err (DecodeErr
                   {| ShortID := shortID;
                      Reason := "failed to parse UUID: " ++ uuid_Error Quote err |})
        | inl parsedUUID => Ok parsedUUID
        end
  end.

End WithQuote.

Definition and_then {A B} (r : outcome A) (f : A -> outcome B) : outcome B :=
  match r with
  | Ok a => f a
  | Err e => Err e
  end.

End ShortuuidHex.

(** ** The words of the specification, for comparison with the code *)

Module Spec.

Import Go.

(** The alphabet: the digits, the upper-case letters, the lower-case
    letters, 62 symbols in this order. *)
Definition alphabet : list rune :=
  map (fun i => 48 + Z.of_nat i) (seq 0 10)
  ++ map (fun i => 65 + Z.of_nat i) (seq 0 26)
  ++ map (fun i => 97 + Z.of_nat i) (seq 0 26).

Definition symbol (d : Z) : rune := nth (Z.to_nat d) alphabet 0.

(** The remainders of the repeated division of [n] by 62, as symbols,
    least significant first. *)
Fixpoint remainders (fuel : nat) (n : Z) : list rune :=
  match fuel with
  | O => []
  | S fuel' =>
      if 0 <? n then symbol (n mod 62) :: remainders fuel' (n / 62) else []
  end.

(** intToShort: the collected symbols reversed; the single symbol of
    index 0 for zero. *)
Definition intToShort (n : Z) : string :=
  if n =? 0 then string_of_runes [symbol 0]
  else string_of_runes (rev (remainders (Radix.steps n) n)).

(** The index of a symbol in the alphabet, if it is one. *)
Fixpoint position (c : rune) (l : list rune) : option Z :=
  match l with
  | [] => None
  | x :: l' => if c =? x then Some 0 else option_map Z.succ (position c l')
  end.

Definition index_of (c : rune) : option Z := position c alphabet.

Definition is_symbol (c : rune) : Prop := In c alphabet.

(** shortToInt on symbols that all have an index: the accumulator starts
    at zero and becomes [accumulator * 62 + index] at each symbol, from
    left to right. *)
Definition accumulate (symbols : list rune) : Z :=
  fold_left
    (fun accumulator c =>
       accumulator * 62 + match index_of c with Some i => i | None => 0 end)
    symbols 0.

(** The first symbol of a short ID that is absent from the alphabet. *)
Definition offending (symbols : list rune) : option rune :=
  find (fun c => match index_of c with Some _ => false | None => true end) symbols.

(** A string without its leading zero bytes. *)
Fixpoint strip_zero_bytes (s : string) : string :=
  match s with
  | EmptyString => EmptyString
  | String c s' => if Ascii.eqb c zero then strip_zero_bytes s' else s
  end.

(** The first byte of a string exists and is not zero. *)
Definition first_byte_nonzero (s : string) : Prop :=
  match s with
  | EmptyString => False
  | String c _ => c <> zero
  end.

(** The 128-bit integer of a UUID: its 16 bytes, big-endian. *)
Definition uuid_value (u : UUID) : Z := big_SetBytes u.

(** A byte that is one of the 62 symbols: an ASCII digit or letter. *)
Definition alnum (c : byte) : bool :=
  let v := byte_val c in
  ((48 <=? v) && (v <=? 57)) || ((65 <=? v) && (v <=? 90))
  || ((97 <=? v) && (v <=? 122)).

(** A string made of symbols only. *)
Definition all_symbols (s : string) : Prop :=
  forallb alnum (bytes_of_string s) = true.

(** A short ID as [intToBase] writes them: symbols only, at least one,
    and no zero symbol in front unless the ID is the zero symbol alone. *)
Definition short_id (id : string) : Prop :=
  all_symbols id
  /\ id <> EmptyString
  /\ (forall rest, id = String "0" rest -> rest = EmptyString).

(** The integer a string of symbols stands for in base 62. *)
Definition value (id : string) : Z := accumulate (runes_of_string id).

(** The digit of a rune: its index in the alphabet, 0 for a rune that
    is no symbol. *)
Definition digit_of (r : rune) : Z :=
  match index_of r with Some i => i | None => 0 end.

End Spec.

(** ** Concrete inputs, used to run the definitions *)

Module Samples.

Import Go.

(** The UUID 4890586e-32a5-4f9c-a000-2a2bb68eb1ce of the README and of
    the benchmarks: version 4, RFC 4122 variant. *)
Definition sample_uuid : UUID :=
  [x48; x90; x58; x6e; x32; xa5; x4f; x9c; xa0; x00; x2a; x2b; xb6; x8e; xb1; xce].

(** What [ShortenUUID] of [shortuuid.go] returns for it. *)
Definition sample_long_id : string :=
  "w3Gvi9pRf1xYjP3A4QovOuNaGMRs1T29iJHJBa90TEsfmbAL".

(** What [ShortenUUID] of the second text returns for it. *)
Definition sample_short_id : string := "2CvPdpytrcURpSLoPxYb30".

(** An instance of [Quote] that is right on printable ASCII without
    quotes and backslashes. *)
Definition plain_quote (s : string) : string :=
  String "034"%char (s ++ String "034"%char EmptyString).

(** Two zero bytes, then the letter A. *)
Definition zero_led : string := String zero (String zero "A").

End Samples.

(** * Properties *)

(** ** Positional numerals *)

Section NumeralFacts.

Variable b : Z.
Hypothesis b_ge_2 : 2 <= b.

Lemma horner_app acc l1 l2 :
  Radix.horner b acc (l1 ++ l2) = Radix.horner b (Radix.horner b acc l1) l2.
Proof. unfold Radix.horner. apply fold_left_app. Qed.

Lemma horner_shift ds : forall acc,
  Radix.horner b acc ds = acc * b ^ Z.of_nat (List.length ds) + Radix.undigits b ds.
Proof.
  unfold Radix.undigits.
  induction ds as [|d ds IH]; intro acc.
  - cbn. lia.
  - cbn [Radix.horner fold_left List.length].
    fold (Radix.horner b (acc * b + d) ds). fold (Radix.horner b (0 * b + d) ds).
    rewrite (IH (acc * b + d)), (IH (0 * b + d)).
    rewrite Nat2Z.inj_succ, Z.pow_succ_r by lia. ring.
Qed.

Lemma undigits_cons d ds :
  Radix.undigits b (d :: ds) = d * b ^ Z.of_nat (List.length ds) + Radix.undigits b ds.
Proof.
  unfold Radix.undigits at 1. cbn [Radix.horner fold_left].
  fold (Radix.horner b (0 * b + d) ds). rewrite horner_shift. ring.
Qed.

Lemma undigits_snoc ds d :
  Radix.undigits b (ds ++ [d]) = Radix.undigits b ds * b + d.
Proof. unfold Radix.undigits. rewrite horner_app. reflexivity. Qed.

Lemma undigits_nonneg ds : Radix.in_range b ds -> 0 <= Radix.undigits b ds.
Proof.
  induction ds as [|d ds IH] using rev_ind; intro H.
  - cbn. lia.
  - rewrite undigits_snoc. apply Forall_app in H as [H1 H2].
    inversion H2; subst. specialize (IH H1). nia.
Qed.

Lemma undigits_upper ds :
  Radix.in_range b ds -> Radix.undigits b ds < b ^ Z.of_nat (List.length ds).
Proof.
  induction ds as [|d ds IH] using rev_ind; intro H.
  - cbn. lia.
  - rewrite undigits_snoc, length_app. cbn [List.length].
    apply Forall_app in H as [H1 H2]. inversion H2; subst.
    specialize (IH H1).
    replace (Z.of_nat (List.length ds + 1)) with (Z.succ (Z.of_nat (List.length ds))) by lia.
    rewrite Z.pow_succ_r by lia. nia.
Qed.

Lemma canonical_prefix ds d : Radix.canonical b (ds ++ [d]) -> Radix.canonical b ds.
Proof.
  intros [H1 H2]. split.
  - apply Forall_app in H1. tauto.
  - intros x ds' ->. apply (H2 x (ds' ++ [d])). reflexivity.
Qed.

Lemma canonical_positive ds :
  Radix.canonical b ds -> ds <> [] -> 0 < Radix.undigits b ds.
Proof.
  induction ds as [|d ds IH] using rev_ind; intros Hc Hne.
  - congruence.
  - rewrite undigits_snoc.
    pose proof (canonical_prefix _ _ Hc) as Hc'.
    destruct Hc as [Hr Hh]. apply Forall_app in Hr as [Hr1 Hr2].
    inversion Hr2; subst.
    destruct ds as [|x ds].
    + cbn. specialize (Hh d [] eq_refl). lia.
    + assert (0 < Radix.undigits b (x :: ds)) by (apply IH; [assumption|discriminate]).
      nia.
Qed.

Lemma canonical_lower ds :
  Radix.canonical b ds -> ds <> [] ->
  b ^ Z.of_nat (List.length ds - 1) <= Radix.undigits b ds.
Proof.
  intros [Hr Hh] Hne. destruct ds as [|d ds]; [congruence|].
  rewrite undigits_cons. cbn [List.length].
  replace (S (List.length ds) - 1)%nat with (List.length ds) by lia.
  inversion Hr; subst. specialize (Hh d ds eq_refl).
  pose proof (undigits_nonneg ds H2).
  assert (0 < b ^ Z.of_nat (List.length ds)) by (apply Z.pow_pos_nonneg; lia).
  nia.
Qed.

(** The loop computes the digits of [n] in front of [acc], provided the
    fuel covers the bits of [n]. *)
Lemma digits_loop_value : forall fuel n acc,
  0 <= n < 2 ^ Z.of_nat fuel ->
  Radix.undigits b (Radix.digits_loop b fuel n acc)
  = n * b ^ Z.of_nat (List.length acc) + Radix.undigits b acc.
Proof.
  induction fuel as [|k IH]; intros n acc Hn.
  - cbn [Radix.digits_loop]. change (2 ^ Z.of_nat 0) with 1 in Hn.
    assert (n = 0) by lia. subst. lia.
  - cbn [Radix.digits_loop]. destruct (0 <? n) eqn:E.
    + apply Z.ltb_lt in E.
      rewrite IH.
      * rewrite undigits_cons. cbn [List.length].
        rewrite Nat2Z.inj_succ, Z.pow_succ_r by lia.
        pose proof (Z.div_mod n b ltac:(lia)). nia.
      * rewrite Nat2Z.inj_succ, Z.pow_succ_r in Hn by lia.
        split; [apply Z.div_pos; lia|].
        apply Z.div_lt_upper_bound; [lia|]. nia.
    + apply Z.ltb_ge in E. assert (n = 0) by lia. subst. lia.
Qed.

Lemma digits_loop_shape : forall fuel n acc,
  0 <= n < 2 ^ Z.of_nat fuel ->
  Radix.in_range b acc ->
  Radix.in_range b (Radix.digits_loop b fuel n acc)
  /\ (n = 0 -> Radix.digits_loop b fuel n acc = acc)
  /\ (0 < n -> exists d rest,
        Radix.digits_loop b fuel n acc = d :: rest /\ d <> 0).
Proof.
  induction fuel as [|k IH]; intros n acc Hn Hacc.
  - cbn [Radix.digits_loop]. change (2 ^ Z.of_nat 0) with 1 in Hn.
    assert (n = 0) by lia. subst. repeat split; auto. lia.
  - cbn [Radix.digits_loop]. destruct (0 <? n) eqn:E.
    + apply Z.ltb_lt in E.
      assert (Hq : 0 <= n / b < 2 ^ Z.of_nat k).
      { rewrite Nat2Z.inj_succ, Z.pow_succ_r in Hn by lia.
        split; [apply Z.div_pos; lia|].
        apply Z.div_lt_upper_bound; [lia|]. nia. }
      assert (Hm : 0 <= n mod b < b) by (apply Z.mod_pos_bound; lia).
      assert (Hacc' : Radix.in_range b (n mod b :: acc))
        by (constructor; assumption).
      destruct (IH (n / b) (n mod b :: acc) Hq Hacc') as (I1 & I2 & I3).
      split; [assumption|]. split; [lia|]. intros _.
      destruct (Z.eq_dec (n / b) 0) as [Z0|NZ].
      * rewrite (I2 Z0). exists (n mod b), acc. split; [reflexivity|].
        pose proof (Z.div_mod n b ltac:(lia)). nia.
      * apply I3. lia.
    + apply Z.ltb_ge in E. repeat split; auto. lia.
Qed.

Lemma digits_loop_inverse : forall ds fuel acc,
  Radix.canonical b ds ->
  Radix.undigits b ds < 2 ^ Z.of_nat fuel ->
  Radix.digits_loop b fuel (Radix.undigits b ds) acc = ds ++ acc.
Proof.
  induction ds as [|d ds IH] using rev_ind; intros fuel acc Hc Hf.
  - cbn. destruct fuel; reflexivity.
  - pose proof (canonical_positive _ Hc ltac:(intro X; apply app_eq_nil in X; destruct X; discriminate)) as Hpos.
    pose proof (canonical_prefix _ _ Hc) as Hc'.
    destruct Hc as [Hr _]. apply Forall_app in Hr as [Hr1 Hr2].
    inversion Hr2; subst.
    rewrite undigits_snoc in *.
    pose proof (undigits_nonneg ds Hr1) as Hnn.
    destruct fuel as [|k]; [cbn in Hf; lia|].
    cbn [Radix.digits_loop].
    replace (0 <? Radix.undigits b ds * b + d) with true
      by (symmetry; apply Z.ltb_lt; lia).
    replace ((Radix.undigits b ds * b + d) / b) with (Radix.undigits b ds)
      by (apply Z.div_unique with (r := d); lia).
    replace ((Radix.undigits b ds * b + d) mod b) with d
      by (apply Z.mod_unique with (q := Radix.undigits b ds); lia).
    rewrite IH.
    + rewrite <- app_assoc. reflexivity.
    + assumption.
    + rewrite Nat2Z.inj_succ, Z.pow_succ_r in Hf by lia. nia.
Qed.

Lemma steps_enough n : 0 <= n -> n < 2 ^ Z.of_nat (Radix.steps n).
Proof.
  intro Hn. unfold Radix.steps.
  rewrite Nat2Z.inj_succ, Z2Nat.id by apply Z.log2_nonneg.
  destruct (Z.eq_dec n 0) as [->|NZ].
  - cbn. lia.
  - apply Z.log2_spec. lia.
Qed.

Lemma undigits_digits n : 0 <= n -> Radix.undigits b (Radix.digits b n) = n.
Proof.
  intro Hn. unfold Radix.digits.
  rewrite digits_loop_value by (split; [assumption|apply steps_enough; assumption]).
  cbn. lia.
Qed.

Lemma digits_undigits ds :
  Radix.canonical b ds -> Radix.digits b (Radix.undigits b ds) = ds.
Proof.
  intro Hc. unfold Radix.digits.
  rewrite digits_loop_inverse.
  - apply app_nil_r.
  - assumption.
  - apply steps_enough. apply undigits_nonneg. apply Hc.
Qed.

(** The result of the loop does not depend on the fuel, once the fuel
    covers the bits of [n]: the loop ends because [n] reached zero. *)
Lemma digits_loop_fuel fuel n acc :
  0 <= n < 2 ^ Z.of_nat fuel ->
  Radix.digits_loop b fuel n acc = Radix.digits b n ++ acc.
Proof.
  intros [Hn Hf].
  assert (Hc : Radix.canonical b (Radix.digits b n)).
  { unfold Radix.digits.
    destruct (digits_loop_shape (Radix.steps n) n []) as (I1 & I2 & I3).
    - split; [assumption|apply steps_enough; assumption].
    - constructor.
    - split; [assumption|].
      intros d ds' E. destruct (Z.eq_dec n 0) as [Z0|NZ].
      + rewrite (I2 Z0) in E. discriminate.
      + destruct I3 as (d' & rest & E' & Hd); [lia|]. congruence. }
  rewrite <- (undigits_digits n Hn) at 1.
  apply digits_loop_inverse; [assumption|].
  rewrite undigits_digits; assumption.
Qed.

Lemma digits_canonical n : 0 <= n -> Radix.canonical b (Radix.digits b n).
Proof.
  intro Hn. unfold Radix.digits.
  destruct (digits_loop_shape (Radix.steps n) n []) as (I1 & I2 & I3).
  - split; [assumption|apply steps_enough; assumption].
  - constructor.
  - split; [assumption|].
    intros d ds' E. destruct (Z.eq_dec n 0) as [Z0|NZ].
    + rewrite (I2 Z0) in E. discriminate.
    + destruct I3 as (d' & rest & E' & Hd); [lia|]. congruence.
Qed.

Lemma digit_of_digits n :
  0 <= n -> forall d, In d (Radix.digits b n) -> 0 <= d < b.
Proof.
  intros Hn d Hd. destruct (digits_canonical n Hn) as [R _].
  unfold Radix.in_range in R. rewrite Forall_forall in R. apply R. assumption.
Qed.

Lemma digits_zero : Radix.digits b 0 = [].
Proof. reflexivity. Qed.

Lemma digits_nonempty n : 0 < n -> Radix.digits b n <> [].
Proof.
  intros Hn E. pose proof (undigits_digits n ltac:(lia)) as H.
  rewrite E in H. cbn in H. lia.
Qed.

Lemma trim_canonical ds : Radix.in_range b ds -> Radix.canonical b (Radix.trim ds).
Proof.
  induction ds as [|d ds IH]; intro H.
  - split; [constructor|]. intros; discriminate.
  - inversion H; subst. cbn [Radix.trim]. destruct (d =? 0) eqn:E.
    + apply IH; assumption.
    + split; [assumption|]. intros x ds' X. injection X as -> ->.
      apply Z.eqb_neq in E. assumption.
Qed.

Lemma undigits_trim ds : Radix.undigits b (Radix.trim ds) = Radix.undigits b ds.
Proof.
  induction ds as [|d ds IH]; [reflexivity|].
  cbn [Radix.trim]. destruct (d =? 0) eqn:E; [|reflexivity].
  apply Z.eqb_eq in E. subst. rewrite IH, undigits_cons. lia.
Qed.

(** Converting the value of a numeral back drops its leading zeros. *)
Lemma digits_undigits_trim ds :
  Radix.in_range b ds -> Radix.digits b (Radix.undigits b ds) = Radix.trim ds.
Proof.
  intro H. rewrite <- undigits_trim. apply digits_undigits.
  apply trim_canonical. assumption.
Qed.

(** A number below [b ^ k] has at most [k] digits, and conversely. *)
Lemma digits_length_le n k :
  0 <= n -> (List.length (Radix.digits b n) <= k)%nat <-> n < b ^ Z.of_nat k.
Proof.
  intro Hn.
  pose proof (digits_canonical n Hn) as Hc.
  pose proof (undigits_digits n Hn) as Hv.
  split; intro H.
  - rewrite <- Hv. eapply Z.lt_le_trans; [apply undigits_upper, Hc|].
    apply Z.pow_le_mono_r; lia.
  - destruct (Radix.digits b n) as [|d ds] eqn:E; [cbn; lia|].
    pose proof (canonical_lower _ Hc ltac:(discriminate)) as Hl.
    rewrite Hv in Hl. cbn [List.length] in *.
    replace (S (List.length ds) - 1)%nat with (List.length ds) in Hl by lia.
    destruct (Nat.le_gt_cases (S (List.length ds)) k) as [|Hgt]; [assumption|].
    exfalso.
    assert (b ^ Z.of_nat k <= b ^ Z.of_nat (List.length ds))
      by (apply Z.pow_le_mono_r; lia).
    lia.
Qed.

End NumeralFacts.

(** ** Bytes, runes and strings *)

Import Go.

Lemma byte_val_range c : 0 <= byte_val c < 256.
Proof.
  unfold byte_val. pose proof (Byte.to_N_bounded c). lia.
Qed.

Lemma byte_of_val c : byte_of (byte_val c) = c.
Proof.
  unfold byte_of. rewrite Z.mod_small by apply byte_val_range.
  unfold byte_val. rewrite N2Z.id, Byte.of_to_N. reflexivity.
Qed.

Lemma byte_val_of z : 0 <= z < 256 -> byte_val (byte_of z) = z.
Proof.
  intro Hz. unfold byte_of, byte_val. rewrite Z.mod_small by assumption.
  destruct (Byte.of_N (Z.to_N z)) as [c|] eqn:E.
  - apply Byte.to_of_N in E. rewrite E. lia.
  - apply Byte.of_N_None_iff in E. lia.
Qed.

Lemma byte_val_inj c1 c2 : byte_val c1 = byte_val c2 -> c1 = c2.
Proof.
  intro H. rewrite <- (byte_of_val c1), <- (byte_of_val c2), H. reflexivity.
Qed.

Lemma map_byte_of_val bs : map byte_of (map byte_val bs) = bs.
Proof.
  rewrite map_map. rewrite <- (map_id bs) at 2.
  apply map_ext. intro c. apply byte_of_val.
Qed.

Lemma map_byte_val_of ds :
  Forall (fun d => 0 <= d < 256) ds -> map byte_val (map byte_of ds) = ds.
Proof.
  induction 1 as [|d ds Hd _ IH]; [reflexivity|].
  cbn [map]. rewrite IH, byte_val_of by assumption. reflexivity.
Qed.

Lemma bytes_of_string_of_bytes bs : bytes_of_string (string_of_bytes bs) = bs.
Proof. apply list_byte_of_string_of_list_byte. Qed.

Lemma string_of_bytes_of_string s : string_of_bytes (bytes_of_string s) = s.
Proof. apply string_of_list_byte_of_string. Qed.

Lemma utf8_encode_ascii r : ascii_rune r -> utf8_encode r = [byte_of r].
Proof.
  intros [H0 H1]. unfold utf8_encode.
  replace (0 <=? r) with true by (symmetry; apply Z.leb_le; assumption).
  replace (r <=? 0x7F) with true by (symmetry; apply Z.leb_le; lia).
  reflexivity.
Qed.

Lemma flat_map_utf8_ascii rs :
  Forall ascii_rune rs -> flat_map utf8_encode rs = map byte_of rs.
Proof.
  induction 1 as [|r rs Hr _ IH]; [reflexivity|].
  cbn [flat_map map]. rewrite IH, utf8_encode_ascii by assumption. reflexivity.
Qed.

Lemma decode_runes_ascii rs : Forall ascii_rune rs -> decode_runes rs = rs.
Proof.
  induction 1 as [|r rs [H0 H1] _ IH]; [reflexivity|].
  cbn [decode_runes].
  replace (r <? 0x80) with true by (symmetry; apply Z.ltb_lt; assumption).
  rewrite IH. reflexivity.
Qed.

Lemma runes_of_string_of_runes rs :
  Forall ascii_rune rs -> runes_of_string (string_of_runes rs) = rs.
Proof.
  intro H. unfold runes_of_string, string_of_runes.
  rewrite bytes_of_string_of_bytes, flat_map_utf8_ascii by assumption.
  rewrite map_byte_val_of.
  - apply decode_runes_ascii. assumption.
  - eapply Forall_impl; [|exact H]. unfold ascii_rune. cbn. intros; lia.
Qed.

(** ** math/big *)

Lemma big_DivMod_pos n d : 0 < d -> big_DivMod n d = (n / d, n mod d).
Proof.
  intro Hd. unfold big_DivMod.
  rewrite Z.abs_eq, Z.sgn_pos by lia. f_equal. lia.
Qed.

Lemma big_Int64_small r : - 2 ^ 63 <= r < 2 ^ 63 -> big_Int64 r = r.
Proof.
  intro H. unfold big_Int64. rewrite Z.mod_small by lia. lia.
Qed.

Lemma big_Cmp_gt n : (big_Cmp n (big_NewInt 0) >? 0) = (0 <? n).
Proof.
  unfold big_Cmp, big_NewInt.
  destruct (Z.compare_spec n 0) as [->|H|H].
  - reflexivity.
  - symmetry. apply Z.ltb_ge. cbn. lia.
  - symmetry. apply Z.ltb_lt. lia.
Qed.

Lemma big_SetBytes_nonneg bs : 0 <= big_SetBytes bs.
Proof.
  unfold big_SetBytes. apply undigits_nonneg; [lia|].
  apply Forall_forall. intros d Hd. apply in_map_iff in Hd as (c & <- & _).
  apply byte_val_range.
Qed.

Lemma trim_byte_vals bs :
  Radix.trim (map byte_val bs) = map byte_val (strip_zeros bs).
Proof.
  induction bs as [|c bs IH]; [reflexivity|].
  cbn [map Radix.trim strip_zeros].
  destruct (Byte.eqb c x00) eqn:E.
  - apply Byte.byte_dec_bl in E. subst. cbn. exact IH.
  - replace (byte_val c =? 0) with false; [reflexivity|].
    symmetry. apply Z.eqb_neq. intro H.
    assert (c = x00) by (apply byte_val_inj; rewrite H; reflexivity).
    subst. discriminate.
Qed.

(** The bytes of a big integer read from bytes: the same bytes, without
    the leading zero bytes. *)
Lemma big_Bytes_SetBytes bs : big_Bytes (big_SetBytes bs) = strip_zeros bs.
Proof.
  unfold big_Bytes. rewrite Z.abs_eq by apply big_SetBytes_nonneg.
  unfold big_SetBytes. rewrite digits_undigits_trim.
  - rewrite trim_byte_vals. apply map_byte_of_val.
  - lia.
  - apply Forall_forall. intros d Hd. apply in_map_iff in Hd as (c & <- & _).
    apply byte_val_range.
Qed.

(** ** The conversion engine of [shortuuid.go] *)

Module EngineFacts.

Import Shortuuid.

Lemma defaultBase62_alphabet : defaultBase62 = Spec.alphabet.
Proof. reflexivity. Qed.

Lemma base_62 : base = 62.
Proof. reflexivity. Qed.

(** Case analysis on an index of the alphabet. *)
Lemma index_cases (P : Z -> Prop) :
  (forall k : nat, (k < 62)%nat -> P (Z.of_nat k)) ->
  forall d, 0 <= d < 62 -> P d.
Proof.
  intros H d Hd. rewrite <- (Z2Nat.id d) by lia. apply H. lia.
Qed.

Lemma at_index_symbol d : 0 <= d < 62 -> at_index d = Spec.symbol d.
Proof.
  intro Hd. unfold at_index, Spec.symbol. rewrite defaultBase62_alphabet.
  change (Z.of_nat (List.length Spec.alphabet)) with 62.
  replace (0 <=? d) with true by (symmetry; apply Z.leb_le; lia).
  replace (d <? 62) with true by (symmetry; apply Z.ltb_lt; lia).
  reflexivity.
Qed.

Lemma at_index_ascii d : ascii_rune (at_index d).
Proof.
  unfold at_index.
  destruct ((0 <=? d) && (d <? Z.of_nat (List.length defaultBase62))) eqn:E.
  - apply andb_true_iff in E as [E1 E2].
    apply Z.leb_le in E1. apply Z.ltb_lt in E2.
    change (Z.of_nat (List.length defaultBase62)) with 62 in E2.
    revert d E1 E2.
    enough (forall d, 0 <= d < 62 -> ascii_rune (nth (Z.to_nat d) defaultBase62 0))
      by auto.
    apply (index_cases (fun d => ascii_rune (nth (Z.to_nat d) defaultBase62 0))).
    intros k Hk. rewrite Nat2Z.id. unfold ascii_rune.
    do 62 (destruct k as [|k]; [vm_compute; split; [discriminate|reflexivity]|]).
    exfalso; lia.
  - unfold ascii_rune. lia.
Qed.

(** The remainder of a division by the base is an index of the
    alphabet: the index expression of [intToBase] never panics. *)
Lemma intToBase_index n :
  let (_, remainder) := big_DivMod n base in
  0 <= big_Int64 remainder < Z.of_nat (List.length defaultBase62).
Proof.
  rewrite base_62, big_DivMod_pos by lia.
  pose proof (Z.mod_pos_bound n 62 ltac:(lia)).
  rewrite big_Int64_small by lia. exact H.
Qed.

Lemma find_index_position c : forall l i,
  find_index c l i =
  match Spec.position c l with
  | Some k => i + k
  | None => -1
  end.
Proof.
  induction l as [|x l IH]; intro i; [reflexivity|].
  cbn [find_index Spec.position]. destruct (c =? x); [lia|].
  rewrite IH. destruct (Spec.position c l); cbn [option_map]; lia.
Qed.

Lemma position_nonneg c : forall l k, Spec.position c l = Some k -> 0 <= k.
Proof.
  induction l as [|x l IH]; intros k H; [discriminate|].
  cbn [Spec.position] in H. destruct (c =? x).
  - injection H as <-. lia.
  - destruct (Spec.position c l) as [j|]; [|discriminate].
    injection H as <-. specialize (IH j eq_refl). lia.
Qed.

Lemma position_In c : forall l, Spec.position c l <> None <-> In c l.
Proof.
  induction l as [|x l IH]; cbn [Spec.position In].
  - tauto.
  - destruct (c =? x) eqn:E.
    + apply Z.eqb_eq in E. split; [auto|discriminate].
    + apply Z.eqb_neq in E.
      destruct (Spec.position c l); cbn [option_map]; split.
      * intros _. right. apply IH. discriminate.
      * discriminate.
      * congruence.
      * intros [H|H]; [congruence|]. apply IH in H. congruence.
Qed.

(** The inner loop of [baseToInt] returns [-1] exactly for a rune that is
    not a symbol, and the index of the symbol otherwise. *)
Lemma find_index_index_of c :
  find_index c defaultBase62 0 =
  match Spec.index_of c with
  | Some k => k
  | None => -1
  end.
Proof.
  rewrite find_index_position, defaultBase62_alphabet. unfold Spec.index_of.
  destruct (Spec.position c Spec.alphabet); lia.
Qed.

Lemma index_of_symbol d : 0 <= d < 62 -> Spec.index_of (Spec.symbol d) = Some d.
Proof.
  revert d.
  apply (index_cases (fun d => Spec.index_of (Spec.symbol d) = Some d)).
  intros k Hk. unfold Spec.symbol. rewrite Nat2Z.id.
  do 62 (destruct k as [|k]; [reflexivity|]). exfalso; lia.
Qed.

Lemma symbol_zero d : 0 <= d < 62 -> Spec.symbol d = 48 -> d = 0.
Proof.
  revert d. apply (index_cases (fun d => Spec.symbol d = 48 -> d = 0)).
  intros k Hk. unfold Spec.symbol. rewrite Nat2Z.id.
  destruct k as [|k]; [reflexivity|].
  do 61 (destruct k as [|k]; [vm_compute; discriminate|]). exfalso; lia.
Qed.

Lemma index_of_is_symbol c : Spec.index_of c <> None <-> Spec.is_symbol c.
Proof. apply position_In. Qed.

Lemma index_of_range c k : Spec.index_of c = Some k -> 0 <= k < 62.
Proof.
  unfold Spec.index_of. intro H.
  assert (forall l j, Spec.position c l = Some j -> j < Z.of_nat (List.length l)) as B.
  { induction l as [|x l IH]; intros j Hj; [discriminate|].
    cbn [Spec.position] in Hj. cbn [List.length]. destruct (c =? x).
    - injection Hj as <-. lia.
    - destruct (Spec.position c l) as [i|]; [|discriminate].
      injection Hj as <-. specialize (IH i eq_refl). lia. }
  split; [eapply position_nonneg; eassumption|].
  apply B in H. exact H.
Qed.

(** The loop of [intToBase] is the repeated division of [Radix], with
    each digit shown as its symbol. *)
Lemma intToBase_loop_digits : forall fuel n acc,
  intToBase_loop fuel n (map at_index acc)
  = map at_index (Radix.digits_loop 62 fuel n acc).
Proof.
  induction fuel as [|k IH]; intros n acc; [reflexivity|].
  cbn [intToBase_loop Radix.digits_loop].
  rewrite big_Cmp_gt. destruct (0 <? n); [|reflexivity].
  rewrite base_62, big_DivMod_pos by lia.
  rewrite big_Int64_small
    by (pose proof (Z.mod_pos_bound n 62 ltac:(lia)); lia).
  apply (IH (n / 62) (n mod 62 :: acc)).
Qed.

Lemma intToBase_digits n :
  0 < n -> intToBase n = string_of_runes (map at_index (Radix.digits 62 n)).
Proof.
  intro Hn. unfold intToBase, big_Sign.
  replace (Z.sgn n =? 0) with false
    by (symmetry; apply Z.eqb_neq; rewrite Z.sgn_pos; lia).
  unfold Radix.digits. rewrite <- intToBase_loop_digits. reflexivity.
Qed.

(** More iterations than [Radix.steps n] change nothing: the loop of
    [intToBase] ends because [n] has become zero, never for want of
    iterations. *)
Lemma intToBase_loop_fuel fuel n :
  0 <= n < 2 ^ Z.of_nat fuel ->
  intToBase_loop fuel n [] = intToBase_loop (Radix.steps n) n [].
Proof.
  intro H. change (@nil rune) with (map at_index []).
  rewrite !intToBase_loop_digits. f_equal.
  rewrite digits_loop_fuel by (lia || assumption). apply app_nil_r.
Qed.

Lemma intToBase_zero : intToBase 0 = "0"%string.
Proof. reflexivity. Qed.

(** On the symbols of in-range digits the outer loop of [baseToInt]
    does not fail and computes their value. *)
Lemma baseToInt_loop_symbols encoded : forall ds acc,
  Radix.in_range 62 ds ->
  baseToInt_loop encoded (map at_index ds) acc = Ok (Radix.horner 62 acc ds).
Proof.
  induction ds as [|d ds IH]; intros acc H; [reflexivity|].
  inversion H; subst.
  cbn [map baseToInt_loop].
  rewrite find_index_index_of, at_index_symbol, index_of_symbol by assumption.
  replace (d =? -1) with false by (symmetry; apply Z.eqb_neq; lia).
  rewrite IH by assumption. reflexivity.
Qed.

Lemma runes_of_symbols ds :
  runes_of_string (string_of_runes (map at_index ds)) = map at_index ds.
Proof.
  apply runes_of_string_of_runes. apply Forall_forall.
  intros r Hr. apply in_map_iff in Hr as (d & <- & _). apply at_index_ascii.
Qed.

(** Decoding what [intToBase] produced gives the integer back. *)
Lemma baseToInt_intToBase n : 0 <= n -> baseToInt (intToBase n) = Ok n.
Proof.
  intro Hn. destruct (Z.eq_dec n 0) as [->|NZ]; [reflexivity|].
  rewrite intToBase_digits by lia. unfold baseToInt.
  rewrite runes_of_symbols, baseToInt_loop_symbols.
  - unfold big_NewInt. fold (Radix.undigits 62 (Radix.digits 62 n)).
    rewrite undigits_digits by lia. reflexivity.
  - apply digits_canonical; lia.
Qed.

End EngineFacts.

(** ** The string codec of [shortuuid.go] *)

Module CodecFacts.

Import Shortuuid EngineFacts.

Lemma byte_of_ascii_zero c : Byte.eqb (byte_of_ascii c) x00 = Ascii.eqb c zero.
Proof.
  destruct (Ascii.eqb c zero) eqn:E.
  - apply Ascii.eqb_eq in E. subst. reflexivity.
  - destruct (Byte.eqb (byte_of_ascii c) x00) eqn:F; [|reflexivity].
    apply Byte.byte_dec_bl in F.
    apply (f_equal ascii_of_byte) in F. rewrite ascii_of_byte_of_ascii in F.
    subst. discriminate.
Qed.

Lemma bytes_of_String c s :
  bytes_of_string (String c s) = byte_of_ascii c :: bytes_of_string s.
Proof. reflexivity. Qed.

Lemma strip_zero_bytes_bytes s :
  string_of_bytes (strip_zeros (bytes_of_string s)) = Spec.strip_zero_bytes s.
Proof.
  induction s as [|c s IH]; [reflexivity|].
  rewrite bytes_of_String. cbn [strip_zeros Spec.strip_zero_bytes].
  rewrite byte_of_ascii_zero. destruct (Ascii.eqb c zero).
  - exact IH.
  - rewrite <- bytes_of_String. apply string_of_bytes_of_string.
Qed.

Lemma strip_first_nonzero s : Spec.first_byte_nonzero s -> Spec.strip_zero_bytes s = s.
Proof.
  destruct s as [|c s]; cbn [Spec.first_byte_nonzero Spec.strip_zero_bytes];
    [tauto|].
  intro H. destruct (Ascii.eqb c zero) eqn:E; [|reflexivity].
  apply Ascii.eqb_eq in E. contradiction.
Qed.

Lemma strip_all_zero s :
  (forall c, In c (list_ascii_of_string s) -> c = zero) ->
  Spec.strip_zero_bytes s = EmptyString.
Proof.
  induction s as [|c s IH]; intro H; [reflexivity|].
  cbn [Spec.strip_zero_bytes].
  rewrite (H c) by (left; reflexivity). cbn.
  apply IH. intros x Hx. apply H. right. exact Hx.
Qed.

Lemma encode_nonempty input :
  input <> EmptyString ->
  encode input = Ok (intToBase (big_SetBytes (bytes_of_string input))).
Proof.
  intro H. unfold encode. destruct (String.eqb_spec input EmptyString); [contradiction|].
  reflexivity.
Qed.

Lemma decode_intToBase n :
  0 <= n -> decode (intToBase n) = Ok (string_of_bytes (big_Bytes n)).
Proof.
  intro Hn. unfold decode. rewrite baseToInt_intToBase by assumption.
  reflexivity.
Qed.

(** Expanding a shortened string gives the string without its leading
    zero bytes. *)
Lemma Expand_Shorten s :
  s <> EmptyString -> and_then (Shorten s) Expand = Ok (Spec.strip_zero_bytes s).
Proof.
  intro H. unfold Shorten, Expand. rewrite encode_nonempty by assumption.
  cbn [and_then]. rewrite decode_intToBase by apply big_SetBytes_nonneg.
  rewrite big_Bytes_SetBytes, strip_zero_bytes_bytes. reflexivity.
Qed.

(** The outer loop of [baseToInt], against the words of the
    specification. *)
Lemma baseToInt_loop_spec encoded : forall chars acc,
  baseToInt_loop encoded chars acc =
  match Spec.offending chars with
  | Some c =>
      Err (DecodeErr
             {| ShortID := encoded;
                Reason := "contains invalid character '" ++ Sprintf_c c
                          ++ "' not found in alphabet" |})
  | None =>
      Ok (fold_left
            (fun accumulator c =>
               accumulator * 62
               + match Spec.index_of c with Some i => i | None => 0 end)
            chars acc)
  end.
Proof.
  induction chars as [|c chars IH]; intro acc; [reflexivity|].
  cbn [baseToInt_loop Spec.offending find fold_left].
  rewrite find_index_index_of.
  destruct (Spec.index_of c) as [k|] eqn:E.
  - pose proof (index_of_range c k E).
    replace (k =? -1) with false by (symmetry; apply Z.eqb_neq; lia).
    rewrite IH. reflexivity.
  - reflexivity.
Qed.

Lemma offending_some chars c :
  Spec.offending chars = Some c -> In c chars /\ ~ Spec.is_symbol c.
Proof.
  intro H. apply find_some in H as [H1 H2]. split; [assumption|].
  intro S. apply index_of_is_symbol in S. cbv beta in H2.
  destruct (Spec.index_of c); [discriminate|congruence].
Qed.

Lemma offending_none chars :
  Spec.offending chars = None -> Forall Spec.is_symbol chars.
Proof.
  intro H. apply Forall_forall. intros c Hc.
  pose proof (find_none _ _ H c Hc) as N. cbv beta in N.
  apply index_of_is_symbol. destruct (Spec.index_of c); discriminate.
Qed.

End CodecFacts.

(** ** github.com/google/uuid *)

Module UuidFacts.

Lemma xtob_hex_digits v :
  xtob (hex_digit (Z.shiftr (byte_val v) 4)) (hex_digit (Z.land (byte_val v) 0x0f))
  = (v, true).
Proof. destruct v; reflexivity. Qed.

Lemma wf_uuid_inv (u : UUID) :
  wf_uuid u ->
  exists b0 b1 b2 b3 b4 b5 b6 b7 b8 b9 b10 b11 b12 b13 b14 b15,
    u = [b0; b1; b2; b3; b4; b5; b6; b7; b8; b9; b10; b11; b12; b13; b14; b15].
Proof.
  unfold wf_uuid. intro H.
  do 16 (destruct u as [|? u]; [discriminate|]).
  destruct u; [|discriminate].
  repeat eexists.
Qed.

(** Parsing the canonical form of a UUID gives the UUID. *)
Lemma Parse_String u : wf_uuid u -> uuid_Parse (uuid_String u) = inl u.
Proof.
  intro H. apply wf_uuid_inv in H.
  destruct H as (b0 & b1 & b2 & b3 & b4 & b5 & b6 & b7 & b8 & b9 & b10 & b11
                 & b12 & b13 & b14 & b15 & ->).
  unfold uuid_Parse, uuid_String. rewrite bytes_of_string_of_bytes.
  cbn -[hex_digit byte_val xtob Z.shiftr Z.land].
  rewrite !xtob_hex_digits. reflexivity.
Qed.

Lemma String_first_nonzero u : wf_uuid u -> Spec.first_byte_nonzero (uuid_String u).
Proof.
  intro H. apply wf_uuid_inv in H.
  destruct H as (b0 & b1 & b2 & b3 & b4 & b5 & b6 & b7 & b8 & b9 & b10 & b11
                 & b12 & b13 & b14 & b15 & ->).
  unfold uuid_String. cbn -[hex_digit byte_val Z.shiftr Z.land].
  destruct b0; vm_compute; discriminate.
Qed.

Lemma String_nonempty u : wf_uuid u -> uuid_String u <> EmptyString.
Proof.
  intros H E. apply String_first_nonzero in H. rewrite E in H. exact H.
Qed.

(** *** Half-bytes *)

Lemma nibble_facts v :
  let hi := Z.shiftr (byte_val v) 4 in
  let lo := Z.land (byte_val v) 0x0f in
  0 <= hi < 16 /\ 0 <= lo < 16 /\ hi * 16 + lo = byte_val v.
Proof. destruct v; vm_compute; intuition discriminate. Qed.

Lemma hex_Encode_nibbles l : hex_Encode l = map hex_digit (nibbles l).
Proof.
  induction l as [|v l IH]; [reflexivity|].
  cbn [hex_Encode nibbles flat_map map app].
  fold (hex_Encode l). fold (nibbles l). rewrite IH. reflexivity.
Qed.

Lemma nibbles_length l : List.length (nibbles l) = (2 * List.length l)%nat.
Proof.
  induction l as [|v l IH]; [reflexivity|].
  cbn [nibbles flat_map app List.length]. fold (nibbles l). rewrite IH. lia.
Qed.

Lemma nibbles_in_range l : Radix.in_range 16 (nibbles l).
Proof.
  induction l as [|v l IH]; [constructor|].
  cbn [nibbles flat_map app]. fold (nibbles l).
  destruct (nibble_facts v) as (H1 & H2 & _).
  constructor; [exact H1|]. constructor; [exact H2|]. exact IH.
Qed.

(** Reading the half-bytes in base 16 is reading the bytes in base 256. *)
Lemma nibbles_value l : forall acc,
  Radix.horner 16 acc (nibbles l) = Radix.horner 256 acc (map byte_val l).
Proof.
  induction l as [|v l IH]; intro acc; [reflexivity|].
  cbn [nibbles flat_map app map Radix.horner fold_left]. fold (nibbles l).
  fold (Radix.horner 16 ((acc * 16 + Z.shiftr (byte_val v) 4) * 16
                         + Z.land (byte_val v) 15) (nibbles l)).
  fold (Radix.horner 256 (acc * 256 + byte_val v) (map byte_val l)).
  rewrite IH. f_equal.
  destruct (nibble_facts v) as (_ & _ & E). cbv zeta in E. lia.
Qed.

Lemma nibbles_SetBytes l : Radix.undigits 16 (nibbles l) = big_SetBytes l.
Proof. apply nibbles_value. Qed.

Lemma big_SetBytes_upper l : big_SetBytes l < 256 ^ Z.of_nat (List.length l).
Proof.
  unfold big_SetBytes.
  rewrite <- (length_map byte_val l). apply undigits_upper; [lia|].
  apply Forall_forall. intros d Hd. apply in_map_iff in Hd as (c & <- & _).
  apply byte_val_range.
Qed.

Lemma uuid_value_range u : wf_uuid u -> 0 <= Spec.uuid_value u < 2 ^ 128.
Proof.
  intro H. unfold Spec.uuid_value. split; [apply big_SetBytes_nonneg|].
  pose proof (big_SetBytes_upper u) as B. rewrite H in B. exact B.
Qed.

(** *** Fixed-width big-endian bytes *)

Lemma undigits_leading_zeros b m ds :
  Radix.undigits b (repeat 0 m ++ ds) = Radix.undigits b ds.
Proof.
  rewrite <- (undigits_trim b (repeat 0 m ++ ds)).
  rewrite <- (undigits_trim b ds). f_equal.
  induction m as [|m IH]; [reflexivity|]. cbn. exact IH.
Qed.

Lemma big_Bytes_vals n :
  0 <= n -> map byte_val (big_Bytes n) = Radix.digits 256 n.
Proof.
  intro Hn. unfold big_Bytes. rewrite Z.abs_eq by assumption.
  apply map_byte_val_of. apply (digits_canonical 256); lia.
Qed.

Lemma big_SetBytes_Bytes n : 0 <= n -> big_SetBytes (big_Bytes n) = n.
Proof.
  intro Hn. unfold big_SetBytes. rewrite big_Bytes_vals by assumption.
  apply undigits_digits; lia.
Qed.

Lemma be_bytes_length k n :
  0 <= n < 256 ^ Z.of_nat k -> List.length (be_bytes k n) = k.
Proof.
  intros [Hn Hk]. unfold be_bytes.
  rewrite length_app, repeat_length.
  assert (List.length (big_Bytes n) <= k)%nat; [|lia].
  rewrite <- (length_map byte_val), big_Bytes_vals by assumption.
  apply digits_length_le; [lia|assumption|assumption].
Qed.

Lemma be_bytes_value k n : 0 <= n -> big_SetBytes (be_bytes k n) = n.
Proof.
  intro Hn. unfold be_bytes, big_SetBytes.
  rewrite map_app, map_repeat. change (byte_val x00) with 0.
  rewrite undigits_leading_zeros.
  apply big_SetBytes_Bytes. assumption.
Qed.

Lemma strip_zeros_length l :
  (List.length (strip_zeros l) <= List.length l)%nat.
Proof.
  induction l as [|c l IH]; [reflexivity|].
  cbn [strip_zeros]. destruct (Byte.eqb c x00); cbn [List.length]; lia.
Qed.

(** The fixed-width form of the value of [l] is [l] itself. *)
Lemma be_bytes_SetBytes l : be_bytes (List.length l) (big_SetBytes l) = l.
Proof.
  unfold be_bytes. rewrite big_Bytes_SetBytes.
  induction l as [|c l IH]; [reflexivity|].
  cbn [strip_zeros]. destruct (Byte.eqb c x00) eqn:E.
  - apply Byte.byte_dec_bl in E. subst.
    pose proof (strip_zeros_length l). cbn [List.length].
    replace (S (List.length l) - List.length (strip_zeros l))%nat
      with (S (List.length l - List.length (strip_zeros l))) by lia.
    cbn [repeat app]. rewrite IH. reflexivity.
  - rewrite Nat.sub_diag. reflexivity.
Qed.

End UuidFacts.

(** ** Hexadecimal text of a big integer *)

Module HexFacts.

Import UuidFacts.

Lemma string_of_bytes_app a c :
  string_of_bytes (a ++ c) = (string_of_bytes a ++ string_of_bytes c)%string.
Proof.
  induction a as [|x a IH]; [reflexivity|].
  cbn [app]. unfold string_of_bytes, string_of_list_byte in *.
  cbn [map string_of_list_ascii String.append]. rewrite IH. reflexivity.
Qed.

Lemma string_of_bytes_length bs : String.length (string_of_bytes bs) = List.length bs.
Proof.
  induction bs as [|x bs IH]; [reflexivity|].
  unfold string_of_bytes, string_of_list_byte in *.
  cbn [map string_of_list_ascii String.length List.length]. rewrite IH.
  reflexivity.
Qed.

Lemma RuneCount_ascii bs :
  Forall ascii_byte bs -> RuneCount (string_of_bytes bs) = List.length bs.
Proof.
  intro H. unfold RuneCount, runes_of_string.
  rewrite bytes_of_string_of_bytes, decode_runes_ascii, length_map; [reflexivity|].
  apply Forall_forall. intros r Hr. apply in_map_iff in Hr as (c & <- & Hc).
  rewrite Forall_forall in H. specialize (H c Hc).
  pose proof (byte_val_range c). unfold ascii_rune, ascii_byte in *. lia.
Qed.

Lemma digit_cases (P : Z -> Prop) :
  P 0 -> P 1 -> P 2 -> P 3 -> P 4 -> P 5 -> P 6 -> P 7 -> P 8 -> P 9 ->
  P 10 -> P 11 -> P 12 -> P 13 -> P 14 -> P 15 ->
  forall d, 0 <= d < 16 -> P d.
Proof.
  intros. 
  assert (d = 0 \/ d = 1 \/ d = 2 \/ d = 3 \/ d = 4 \/ d = 5 \/ d = 6 \/ d = 7
          \/ d = 8 \/ d = 9 \/ d = 10 \/ d = 11 \/ d = 12 \/ d = 13 \/ d = 14
          \/ d = 15) as C by lia.
  repeat (destruct C as [->|C]; [assumption|]). subst. assumption.
Qed.

Lemma lower_digit_hex d :
  0 <= d < 16 -> nth (Z.to_nat d) lower_digits x30 = hex_digit d.
Proof.
  revert d.
  apply (digit_cases (fun d => nth (Z.to_nat d) lower_digits x30 = hex_digit d));
    reflexivity.
Qed.

Lemma hex_digit_ascii d : 0 <= d < 16 -> ascii_byte (hex_digit d).
Proof.
  revert d. apply (digit_cases (fun d => ascii_byte (hex_digit d))); reflexivity.
Qed.

Lemma digit_val_hex d : 0 <= d < 16 -> digit_val (hex_digit d) = Some d.
Proof.
  revert d.
  apply (digit_cases (fun d => digit_val (hex_digit d) = Some d)); reflexivity.
Qed.

Lemma scan_sign_hex d rest :
  0 <= d < 16 -> scan_sign (hex_digit d :: rest) = (false, hex_digit d :: rest).
Proof.
  revert d.
  apply (digit_cases (fun d => scan_sign (hex_digit d :: rest)
                               = (false, hex_digit d :: rest))); reflexivity.
Qed.

Lemma not_dash_hex d :
  0 <= d < 16 -> negb (Byte.eqb (hex_digit d) x2d) = true.
Proof.
  revert d.
  apply (digit_cases (fun d => negb (Byte.eqb (hex_digit d) x2d) = true));
    reflexivity.
Qed.

Lemma scan_hex_digits ds :
  Radix.in_range 16 ds -> scan_digits 16 (map hex_digit ds) = Some ds.
Proof.
  induction 1 as [|d ds Hd _ IH]; [reflexivity|].
  cbn [map scan_digits]. rewrite digit_val_hex by assumption.
  replace (d <? 16) with true by (symmetry; apply Z.ltb_lt; lia).
  rewrite IH. reflexivity.
Qed.

(** [SetString] reads the hexadecimal form of a list of bytes as
    [SetBytes] reads the bytes. *)
Lemma SetString_hex l :
  l <> [] -> big_SetString (string_of_bytes (hex_Encode l)) 16 = Some (big_SetBytes l).
Proof.
  intro Hl. unfold big_SetString. rewrite bytes_of_string_of_bytes.
  rewrite hex_Encode_nibbles.
  pose proof (nibbles_in_range l) as R.
  destruct l as [|v l]; [congruence|].
  cbn [nibbles flat_map app map] in *. fold (nibbles l) in *.
  inversion R as [|d1 r1 H1 R1]; subst. inversion R1 as [|d2 r2 H2 R2]; subst.
  rewrite scan_sign_hex by assumption.
  change (hex_digit (Z.shiftr (byte_val v) 4) :: hex_digit (Z.land (byte_val v) 15)
          :: map hex_digit (nibbles l))
    with (map hex_digit (nibbles (v :: l))).
  rewrite scan_hex_digits by (apply nibbles_in_range).
  rewrite nibbles_SetBytes. reflexivity.
Qed.

Lemma big_Text_16 n : 0 <= n -> big_Text n 16 = string_of_bytes (text16 n).
Proof.
  intro Hn. unfold big_Text, text16. destruct (n =? 0) eqn:E; [reflexivity|].
  replace (n <? 0) with false by (symmetry; apply Z.ltb_ge; assumption).
  rewrite Z.abs_eq by assumption. f_equal.
  apply map_ext_in. intros d Hd. apply lower_digit_hex.
  apply (digit_of_digits 16 ltac:(lia) n Hn). assumption.
Qed.

Lemma text16_ascii n : 0 <= n -> Forall ascii_byte (text16 n).
Proof.
  intro Hn. unfold text16. destruct (n =? 0).
  - constructor; [reflexivity|constructor].
  - apply Forall_forall. intros c Hc. apply in_map_iff in Hc as (d & <- & Hd).
    apply hex_digit_ascii.
    apply (digit_of_digits 16 ltac:(lia) n Hn). assumption.
Qed.

Lemma Sprintf_0s_text w n :
  0 <= n ->
  Sprintf_0s w (big_Text n 16)
  = string_of_bytes (repeat x30 (w - List.length (text16 n)) ++ text16 n).
Proof.
  intro Hn. unfold Sprintf_0s. rewrite big_Text_16 by assumption.
  rewrite RuneCount_ascii by (apply text16_ascii; assumption).
  rewrite string_of_bytes_app. reflexivity.
Qed.

Lemma text16_length_le n k :
  0 <= n -> (0 < k)%nat ->
  (List.length (text16 n) <= k)%nat <-> n < 16 ^ Z.of_nat k.
Proof.
  intros Hn Hk. unfold text16. destruct (n =? 0) eqn:E.
  - apply Z.eqb_eq in E. subst. cbn [List.length]. split; [|lia].
    intros _. apply Z.pow_pos_nonneg; lia.
  - rewrite length_map. apply digits_length_le; lia.
Qed.

(** The padded text has [w] characters exactly when [n] fits in [w]
    hexadecimal digits. *)
Lemma Sprintf_0s_text_length w n :
  0 <= n -> (0 < w)%nat ->
  String.length (Sprintf_0s w (big_Text n 16)) = w <-> n < 16 ^ Z.of_nat w.
Proof.
  intros Hn Hw. rewrite Sprintf_0s_text by assumption.
  rewrite string_of_bytes_length, length_app, repeat_length.
  rewrite <- (text16_length_le n w) by assumption. lia.
Qed.

Lemma trim_split ds :
  ds = repeat 0 (List.length ds - List.length (Radix.trim ds)) ++ Radix.trim ds.
Proof.
  assert (L : forall l, (List.length (Radix.trim l) <= List.length l)%nat).
  { induction l as [|d l IH]; [reflexivity|].
    cbn [Radix.trim]. destruct (d =? 0); cbn [List.length]; lia. }
  induction ds as [|d ds IH]; [reflexivity|].
  cbn [Radix.trim]. destruct (d =? 0) eqn:E.
  - apply Z.eqb_eq in E. subst. specialize (L ds). cbn [List.length].
    replace (S (List.length ds) - List.length (Radix.trim ds))%nat
      with (S (List.length ds - List.length (Radix.trim ds))) by lia.
    cbn [repeat app]. rewrite <- IH. reflexivity.
  - rewrite Nat.sub_diag. reflexivity.
Qed.

(** Padding the text of the value of some bytes gives back the
    hexadecimal form of the bytes. *)
Lemma padded_text_hex l :
  l <> [] ->
  repeat x30 (2 * List.length l - List.length (text16 (big_SetBytes l)))
  ++ text16 (big_SetBytes l)
  = hex_Encode l.
Proof.
  intro Hl. rewrite hex_Encode_nibbles.
  pose proof (nibbles_in_range l) as R.
  pose proof (digits_undigits_trim 16 ltac:(lia) _ R) as T.
  rewrite nibbles_SetBytes in T.
  rewrite <- nibbles_length.
  unfold text16. destruct (big_SetBytes l =? 0) eqn:E.
  - apply Z.eqb_eq in E. rewrite E in T. cbn in T.
    pose proof (trim_split (nibbles l)) as S. rewrite <- T in S.
    cbn [List.length] in S. rewrite Nat.sub_0_r, app_nil_r in S.
    assert (0 < List.length (nibbles l))%nat
      by (rewrite nibbles_length; destruct l; [congruence|cbn; lia]).
    remember (List.length (nibbles l)) as m eqn:Em.
    rewrite S, map_repeat. change (hex_digit 0) with x30.
    cbn [List.length]. destruct m as [|m]; [lia|].
    replace (Datatypes.S m - 1)%nat with m by lia.
    cbn [repeat]. rewrite repeat_cons. reflexivity.
  - rewrite T, length_map.
    pose proof (trim_split (nibbles l)) as Sp.
    remember (Radix.trim (nibbles l)) as t eqn:Et.
    remember (List.length (nibbles l) - List.length t)%nat as k eqn:Ek.
    rewrite Sp, map_app, map_repeat. reflexivity.
Qed.

End HexFacts.

(** ** The second text of the package *)

Module HexPackageFacts.

Import UuidFacts HexFacts.

(** Its conversion engine is that of [shortuuid.go]. *)
Lemma intToBase_same n : ShortuuidHex.intToBase n = Shortuuid.intToBase n.
Proof. reflexivity. Qed.

Lemma hex_baseToInt_loop_spec encoded : forall chars acc,
  ShortuuidHex.baseToInt_loop encoded chars acc =
  match Spec.offending chars with
  | Some c =>
      ShortuuidHex.Err
        (ShortuuidHex.DecodeErr
           {| ShortuuidHex.ShortID := encoded;
              ShortuuidHex.Reason :=
                "invalid character '" ++ Sprintf_c c
                ++ "' in short ID (valid characters: 0-9, A-Z, a-z)" |})
  | None =>
      ShortuuidHex.Ok
        (fold_left
           (fun accumulator c =>
              accumulator * 62
              + match Spec.index_of c with Some i => i | None => 0 end)
           chars acc)
  end.
Proof.
  induction chars as [|c chars IH]; intro acc; [reflexivity|].
  cbn [ShortuuidHex.baseToInt_loop Spec.offending find fold_left].
  change (ShortuuidHex.find_index c ShortuuidHex.defaultBase62 0)
    with (Shortuuid.find_index c Shortuuid.defaultBase62 0).
  rewrite EngineFacts.find_index_index_of.
  destruct (Spec.index_of c) as [k|] eqn:E.
  - pose proof (EngineFacts.index_of_range c k E).
    replace (k =? -1) with false by (symmetry; apply Z.eqb_neq; lia).
    rewrite IH. reflexivity.
  - reflexivity.
Qed.

(** Both texts decode the same short IDs to the same integers. *)
Lemma baseToInt_same s n :
  Shortuuid.baseToInt s = Shortuuid.Ok n <->
  ShortuuidHex.baseToInt s = ShortuuidHex.Ok n.
Proof.
  unfold Shortuuid.baseToInt, ShortuuidHex.baseToInt.
  rewrite CodecFacts.baseToInt_loop_spec, hex_baseToInt_loop_spec.
  destruct (Spec.offending (runes_of_string s)); split; intro H;
    try discriminate; injection H as <-; reflexivity.
Qed.

Lemma accumulate_nonneg chars : forall acc,
  0 <= acc ->
  0 <= fold_left
         (fun accumulator c =>
            accumulator * 62
            + match Spec.index_of c with Some i => i | None => 0 end)
         chars acc.
Proof.
  induction chars as [|c chars IH]; intros acc Hacc; [assumption|].
  cbn [fold_left]. apply IH.
  destruct (Spec.index_of c) as [k|] eqn:E; [|lia].
  pose proof (EngineFacts.index_of_range c k E). lia.
Qed.

Lemma baseToInt_nonneg s n : ShortuuidHex.baseToInt s = ShortuuidHex.Ok n -> 0 <= n.
Proof.
  unfold ShortuuidHex.baseToInt. rewrite hex_baseToInt_loop_spec.
  destruct (Spec.offending (runes_of_string s)); [discriminate|].
  intro H. injection H as <-. apply accumulate_nonneg. reflexivity.
Qed.

Lemma hex_baseToInt_intToBase n :
  0 <= n -> ShortuuidHex.baseToInt (ShortuuidHex.intToBase n) = ShortuuidHex.Ok n.
Proof.
  intro Hn. rewrite intToBase_same. apply baseToInt_same.
  apply EngineFacts.baseToInt_intToBase. assumption.
Qed.

Lemma filter_dash_hex l :
  filter (fun c => negb (Byte.eqb c x2d)) (hex_Encode l) = hex_Encode l.
Proof.
  rewrite hex_Encode_nibbles. pose proof (nibbles_in_range l) as R.
  induction R as [|d ds Hd _ IH]; [reflexivity|].
  cbn [map filter]. rewrite not_dash_hex by assumption. rewrite IH. reflexivity.
Qed.

Lemma filter_dash_group l rest :
  filter (fun c => negb (Byte.eqb c x2d)) (hex_Encode l ++ x2d :: rest)
  = hex_Encode l ++ filter (fun c => negb (Byte.eqb c x2d)) rest.
Proof. rewrite filter_app, filter_dash_hex. reflexivity. Qed.

(** Without its hyphens the canonical form of a UUID is the hexadecimal
    form of its 16 bytes: 32 digits. *)
Lemma clean_String u :
  wf_uuid u ->
  ReplaceAll_byte_empty (uuid_String u) x2d = string_of_bytes (hex_Encode u).
Proof.
  intro H. unfold ReplaceAll_byte_empty, uuid_String.
  rewrite bytes_of_string_of_bytes.
  rewrite !filter_dash_group, filter_dash_hex. f_equal.
  unfold hex_Encode. rewrite <- !flat_map_app. f_equal.
  apply wf_uuid_inv in H.
  destruct H as (b0 & b1 & b2 & b3 & b4 & b5 & b6 & b7 & b8 & b9 & b10 & b11
                 & b12 & b13 & b14 & b15 & ->).
  reflexivity.
Qed.

Lemma hex_Encode_length l : List.length (hex_Encode l) = (2 * List.length l)%nat.
Proof. rewrite hex_Encode_nibbles, length_map. apply nibbles_length. Qed.

(** Putting the hyphens back. *)
Lemma hyphenate_hex u :
  wf_uuid u ->
  ShortuuidHex.hyphenate (string_of_bytes (hex_Encode u)) = uuid_String u.
Proof.
  intro H. apply wf_uuid_inv in H.
  destruct H as (b0 & b1 & b2 & b3 & b4 & b5 & b6 & b7 & b8 & b9 & b10 & b11
                 & b12 & b13 & b14 & b15 & ->).
  reflexivity.
Qed.

(** [ShortenUUID] encodes the 128-bit integer of the UUID. *)
Lemma ShortenUUID_value u :
  wf_uuid u ->
  ShortuuidHex.ShortenUUID u
  = ShortuuidHex.Ok (ShortuuidHex.intToBase (Spec.uuid_value u)).
Proof.
  intro H. unfold ShortuuidHex.ShortenUUID.
  destruct (String.eqb_spec (uuid_String u) EmptyString) as [E|_].
  - exfalso. exact (String_nonempty u H E).
  - rewrite clean_String by assumption. unfold ShortuuidHex.encodeHex.
    rewrite SetString_hex; [reflexivity|].
    intros ->. discriminate H.
Qed.

Section WithQuote.

Variable Quote : string -> string.

(** A short ID that decodes to a number below [2 ^ 128] expands to the
    16 bytes of the number. *)
Lemma ExpandUUID_fits s n :
  ShortuuidHex.baseToInt s = ShortuuidHex.Ok n -> n < 2 ^ 128 ->
  ShortuuidHex.ExpandUUID Quote s = ShortuuidHex.Ok (be_bytes 16 n).
Proof.
  intros Hs Hn. pose proof (baseToInt_nonneg s n Hs) as H0.
  assert (W : wf_uuid (be_bytes 16 n))
    by (apply be_bytes_length; split; assumption).
  assert (Hh : Sprintf_0s 32 (big_Text n 16)
               = string_of_bytes (hex_Encode (be_bytes 16 n))).
  { rewrite Sprintf_0s_text by assumption. f_equal.
    rewrite <- (padded_text_hex (be_bytes 16 n))
      by (intro E; rewrite E in W; discriminate W).
    rewrite W, be_bytes_value by assumption. reflexivity. }
  unfold ShortuuidHex.ExpandUUID, ShortuuidHex.decodeHex. rewrite Hs, Hh.
  rewrite string_of_bytes_length, hex_Encode_length, W.
  cbn [Nat.eqb Nat.mul Nat.add negb].
  rewrite (hyphenate_hex _ W), Parse_String by assumption. reflexivity.
Qed.

(** A short ID that decodes to a larger number is refused for the
    length of its hexadecimal text. *)
Lemma ExpandUUID_too_large s n :
  ShortuuidHex.baseToInt s = ShortuuidHex.Ok n -> 2 ^ 128 <= n ->
  ShortuuidHex.ExpandUUID Quote s =
  ShortuuidHex.Err
    (ShortuuidHex.DecodeErr
       {| ShortuuidHex.ShortID := s;
          ShortuuidHex.Reason :=
            "decoded to invalid length: expected 32 hex characters, got "
            ++ Sprintf_d (Z.of_nat (String.length (Sprintf_0s 32 (big_Text n 16)))) |}).
Proof.
  intros Hs Hn. pose proof (baseToInt_nonneg s n Hs) as H0.
  unfold ShortuuidHex.ExpandUUID, ShortuuidHex.decodeHex. rewrite Hs.
  destruct (Nat.eqb_spec (String.length (Sprintf_0s 32 (big_Text n 16))) 32)
    as [E|_]; [|reflexivity].
  apply Sprintf_0s_text_length in E; [|assumption|lia].
  change (16 ^ Z.of_nat 32) with (2 ^ 128) in E. lia.
Qed.

End WithQuote.

End HexPackageFacts.

(** ** The UUID functions of [shortuuid.go] *)

Import Samples.

Module StringPathFacts.

Import Shortuuid UuidFacts.

Lemma ShortenUUID_string u :
  wf_uuid u ->
  ShortenUUID u
  = Ok (intToBase (big_SetBytes (bytes_of_string (uuid_String u)))).
Proof.
  intro H. unfold ShortenUUID, Shorten.
  apply CodecFacts.encode_nonempty. apply String_nonempty. assumption.
Qed.

Lemma String_length u : wf_uuid u -> String.length (uuid_String u) = 36%nat.
Proof.
  intro H. apply wf_uuid_inv in H.
  destruct H as (b0 & b1 & b2 & b3 & b4 & b5 & b6 & b7 & b8 & b9 & b10 & b11
                 & b12 & b13 & b14 & b15 & ->).
  reflexivity.
Qed.

Lemma ExpandUUID_ShortenUUID Quote u :
  wf_uuid u -> and_then (ShortenUUID u) (ExpandUUID Quote) = Ok u.
Proof.
  intro H.
  pose proof (CodecFacts.Expand_Shorten (uuid_String u) (String_nonempty u H)) as R.
  rewrite CodecFacts.strip_first_nonzero in R by (apply String_first_nonzero, H).
  unfold ShortenUUID. destruct (Shorten (uuid_String u)) as [id|e]; [|discriminate].
  cbn [and_then] in *. unfold ExpandUUID. rewrite R, Parse_String by assumption.
  reflexivity.
Qed.

(** On the single zero symbol: the expanded string is empty, which is
    not a UUID. *)
Lemma ExpandUUID_zero_symbol_fails Quote :
  ExpandUUID Quote "0"
  = Err (DecodeErr
           {| ShortID := "0";
              Reason := "failed to parse expanded UUID: invalid UUID length: 0" |}).
Proof. reflexivity. Qed.

Lemma ExpandUUID_unfold Quote s :
  ExpandUUID Quote s =
  match Expand s with
  | Err e => Err e
  | Ok uuidStr =>
      match uuid_Parse uuidStr with
      | inl u => Ok u
      | inr err =>
          Err (DecodeErr
                 {| ShortID := s;
                    Reason := "failed to parse expanded UUID: "
                              ++ uuid_Error Quote err |})
      end
  end.
Proof.
  unfold ExpandUUID. destruct (Expand s); [|reflexivity].
  destruct (uuid_Parse a); reflexivity.
Qed.

End StringPathFacts.

(** ** Short IDs *)

Module ShortIdFacts.

Import Shortuuid EngineFacts.

Lemma symbol_is_symbol d : 0 <= d < 62 -> Spec.is_symbol (Spec.symbol d).
Proof.
  intro H. unfold Spec.is_symbol, Spec.symbol. apply nth_In.
  change (List.length Spec.alphabet) with 62%nat. lia.
Qed.

(** The runes of [intToBase n]: the symbols of the digits of [n], or the
    zero symbol alone. *)
Lemma intToBase_runes n :
  0 <= n ->
  runes_of_string (intToBase n)
  = if n =? 0 then [Spec.symbol 0] else map Spec.symbol (Radix.digits 62 n).
Proof.
  intro Hn. destruct (n =? 0) eqn:E.
  - apply Z.eqb_eq in E. subst. reflexivity.
  - apply Z.eqb_neq in E. rewrite intToBase_digits, runes_of_symbols by lia.
    apply map_ext_in. intros d Hd. apply at_index_symbol.
    apply (digit_of_digits 62 ltac:(lia) n Hn). assumption.
Qed.

Lemma intToBase_symbols n :
  0 <= n -> Forall Spec.is_symbol (runes_of_string (intToBase n)).
Proof.
  intro Hn. rewrite intToBase_runes by assumption. destruct (n =? 0).
  - constructor; [apply symbol_is_symbol; lia|constructor].
  - apply Forall_forall. intros r Hr. apply in_map_iff in Hr as (d & <- & Hd).
    apply symbol_is_symbol. apply (digit_of_digits 62 ltac:(lia) n Hn). assumption.
Qed.

Lemma string_of_runes_cons r rs :
  ascii_rune r ->
  string_of_runes (r :: rs) = String (ascii_of_byte (byte_of r)) (string_of_runes rs).
Proof.
  intro H. unfold string_of_runes. cbn [flat_map].
  rewrite utf8_encode_ascii by assumption. reflexivity.
Qed.

(** For a positive [n] the first character is the symbol of a digit that
    is not zero. *)
Lemma intToBase_head n :
  0 < n ->
  exists c rest, intToBase n = String c rest /\ c <> "0"%char.
Proof.
  intro Hn. rewrite intToBase_digits by assumption.
  pose proof (digits_canonical 62 ltac:(lia) n ltac:(lia)) as [R Hh].
  destruct (Radix.digits 62 n) as [|d ds] eqn:E.
  - exfalso. apply (digits_nonempty 62 ltac:(lia) n Hn). assumption.
  - cbn [map]. rewrite string_of_runes_cons by apply at_index_ascii.
    eexists _, _. split; [reflexivity|].
    inversion R; subst. specialize (Hh d ds eq_refl).
    intro F. apply Hh. apply symbol_zero; [assumption|].
    rewrite <- at_index_symbol by assumption.
    apply (f_equal byte_of_ascii) in F. rewrite byte_of_ascii_of_byte in F.
    apply (f_equal byte_val) in F.
    rewrite byte_val_of in F; [exact F|].
    pose proof (at_index_ascii d) as A. unfold ascii_rune in A. lia.
Qed.

Lemma intToBase_nonempty n : 0 <= n -> intToBase n <> EmptyString.
Proof.
  intro Hn. destruct (Z.eq_dec n 0) as [->|NZ]; [discriminate|].
  destruct (intToBase_head n ltac:(lia)) as (c & rest & -> & _). discriminate.
Qed.

(** The words of the specification for intToShort describe [intToBase]. *)
Lemma remainders_digits : forall fuel n acc,
  rev (Spec.remainders fuel n) ++ map Spec.symbol acc
  = map Spec.symbol (Radix.digits_loop 62 fuel n acc).
Proof.
  induction fuel as [|k IH]; intros n acc; [reflexivity|].
  cbn [Spec.remainders Radix.digits_loop]. destruct (0 <? n); [|reflexivity].
  rewrite <- IH. cbn [rev map]. rewrite <- app_assoc. reflexivity.
Qed.

Lemma intToBase_intToShort n : 0 <= n -> intToBase n = Spec.intToShort n.
Proof.
  intro Hn. unfold Spec.intToShort. destruct (n =? 0) eqn:E.
  - apply Z.eqb_eq in E. subst. reflexivity.
  - apply Z.eqb_neq in E. rewrite intToBase_digits by lia. f_equal.
    pose proof (remainders_digits (Radix.steps n) n []) as H.
    cbn [map] in H. rewrite app_nil_r in H. rewrite H.
    apply map_ext_in. intros d Hd. apply at_index_symbol.
    apply (digit_of_digits 62 ltac:(lia) n Hn). assumption.
Qed.

Lemma all_zero_value s :
  (forall c, In c (list_ascii_of_string s) -> c = zero) ->
  big_SetBytes (bytes_of_string s) = 0.
Proof.
  induction s as [|c s IH]; intro H; [reflexivity|].
  rewrite CodecFacts.bytes_of_String. unfold big_SetBytes. cbn [map].
  rewrite undigits_cons.
  rewrite (H c) by (left; reflexivity).
  change (byte_val (byte_of_ascii zero)) with 0.
  unfold big_SetBytes in IH. rewrite IH; [lia|].
  intros x Hx. apply H. right. exact Hx.
Qed.

End ShortIdFacts.

(** * The claims of the specification *)

Import Shortuuid.

(** C1: for every UUID [u] (16 bytes), [ExpandUUID(ShortenUUID(u))]
    succeeds and returns [u], so with the version and the variant of [u].
    This holds for the functions of [shortuuid.go] and for those of the
    second text of the package. *)
Theorem ExpandUUID_ShortenUUID_roundtrip (Quote : string -> string) (u : Go.UUID) :
  wf_uuid u ->
  (exists u',
      and_then (ShortenUUID u) (ExpandUUID Quote) = Ok u'
      /\ u' = u
      /\ uuid_Version u' = uuid_Version u
      /\ uuid_Variant u' = uuid_Variant u)
  /\ ShortuuidHex.and_then (ShortuuidHex.ShortenUUID u)
       (ShortuuidHex.ExpandUUID Quote)
     = ShortuuidHex.Ok u.
Proof.
  intro H. split.
  - exists u. rewrite StringPathFacts.ExpandUUID_ShortenUUID by assumption.
    repeat split; reflexivity.
  - rewrite HexPackageFacts.ShortenUUID_value by assumption.
    cbn [ShortuuidHex.and_then].
    pose proof (UuidFacts.uuid_value_range u H) as [H0 H1].
    rewrite (HexPackageFacts.ExpandUUID_fits Quote _ (Spec.uuid_value u)).
    + f_equal. unfold Spec.uuid_value.
      pose proof (UuidFacts.be_bytes_SetBytes u) as B.
      unfold wf_uuid in H. rewrite H in B. exact B.
    + apply HexPackageFacts.hex_baseToInt_intToBase. assumption.
    + assumption.
Qed.

Lemma ExpandUUID_ShortenUUID_roundtrip_witness :
  wf_uuid sample_uuid
  /\ ((exists u',
         and_then (ShortenUUID sample_uuid) (ExpandUUID plain_quote) = Ok u'
         /\ u' = sample_uuid
         /\ uuid_Version u' = uuid_Version sample_uuid
         /\ uuid_Variant u' = uuid_Variant sample_uuid)
      /\ ShortuuidHex.and_then (ShortuuidHex.ShortenUUID sample_uuid)
           (ShortuuidHex.ExpandUUID plain_quote)
         = ShortuuidHex.Ok sample_uuid).
Proof.
  split; [reflexivity|].
  apply (ExpandUUID_ShortenUUID_roundtrip plain_quote sample_uuid).
  reflexivity.
Defined.

(** C2, as amended: the second text of the package strips the hyphens of
    the 36-character form of [u], reads the 32 digits left as a number in
    base 16 and returns [intToBase] of it, the 128-bit integer of [u];
    [ShortenUUID] of [shortuuid.go] is [Shorten(u.String())], the
    base-62 form of the integer whose big-endian bytes are the 36
    characters, hyphens included. *)
Theorem ShortenUUID_encodes (u : Go.UUID) :
  wf_uuid u ->
  let cleanUUID := ReplaceAll_byte_empty (uuid_String u) x2d in
  (String.length (uuid_String u) = 36%nat
   /\ String.length cleanUUID = 32%nat
   /\ big_SetString cleanUUID 16 = Some (Spec.uuid_value u)
   /\ ShortuuidHex.ShortenUUID u
      = ShortuuidHex.Ok (ShortuuidHex.intToBase (Spec.uuid_value u)))
  /\ ShortenUUID u = Shorten (uuid_String u)
  /\ ShortenUUID u
     = Ok (intToBase (big_SetBytes (bytes_of_string (uuid_String u)))).
Proof.
  intros H cleanUUID. subst cleanUUID.
  rewrite HexPackageFacts.clean_String by assumption.
  repeat split.
  - apply StringPathFacts.String_length. assumption.
  - rewrite HexFacts.string_of_bytes_length, HexPackageFacts.hex_Encode_length.
    unfold wf_uuid in H. rewrite H. reflexivity.
  - apply HexFacts.SetString_hex. intros ->. discriminate H.
  - apply HexPackageFacts.ShortenUUID_value. assumption.
  - apply StringPathFacts.ShortenUUID_string. assumption.
Qed.

Lemma ShortenUUID_encodes_witness :
  wf_uuid sample_uuid
  /\ (let cleanUUID := ReplaceAll_byte_empty (uuid_String sample_uuid) x2d in
      (String.length (uuid_String sample_uuid) = 36%nat
       /\ String.length cleanUUID = 32%nat
       /\ big_SetString cleanUUID 16 = Some (Spec.uuid_value sample_uuid)
       /\ ShortuuidHex.ShortenUUID sample_uuid
          = ShortuuidHex.Ok (ShortuuidHex.intToBase (Spec.uuid_value sample_uuid)))
      /\ ShortenUUID sample_uuid = Shorten (uuid_String sample_uuid)
      /\ ShortenUUID sample_uuid
         = Ok (intToBase
                 (big_SetBytes (bytes_of_string (uuid_String sample_uuid))))).
Proof.
  split; [reflexivity|].
  apply (ShortenUUID_encodes sample_uuid). reflexivity.
Defined.

(** C2 as stated fails for [shortuuid.go]: for the sample UUID its
    [ShortenUUID] returns a 48-character ID, not the base-62 form of the
    128-bit integer, which has 22 characters. *)
Lemma ShortenUUID_string_path_differs :
  ShortenUUID sample_uuid = Ok sample_long_id
  /\ intToBase (Spec.uuid_value sample_uuid) = sample_short_id
  /\ ShortenUUID sample_uuid <> Ok (intToBase (Spec.uuid_value sample_uuid)).
Proof.
  split; [vm_compute; reflexivity|].
  split; [vm_compute; reflexivity|].
  vm_compute. discriminate.
Qed.

(** C3, as amended: [ExpandUUID] of the second text of the package maps
    the single zero symbol to the all-zero UUID; [ExpandUUID] of
    [shortuuid.go] fails on it with a [DecodeError], because [Expand]
    gives the empty string, which [uuid.Parse] refuses for its length. *)
Theorem ExpandUUID_zero_symbol (Quote : string -> string) :
  (ShortuuidHex.ExpandUUID Quote "0" = ShortuuidHex.Ok Go.Nil
   /\ uuid_String Go.Nil = "00000000-0000-0000-0000-000000000000"%string)
  /\ Expand "0" = Ok EmptyString
  /\ ExpandUUID Quote "0"
     = Err (DecodeErr
              {| ShortID := "0";
                 Reason := "failed to parse expanded UUID: invalid UUID length: 0" |}).
Proof. repeat split. Qed.

(** C3 as stated fails for [shortuuid.go]: whatever [strconv.Quote] does,
    [ExpandUUID("0")] is an error there, not the all-zero UUID. *)
Lemma ExpandUUID_zero_symbol_not_Nil :
  ExpandUUID plain_quote "0"
  = Err (DecodeErr
           {| ShortID := "0";
              Reason := "failed to parse expanded UUID: invalid UUID length: 0" |})
  /\ ~ (exists Quote, ExpandUUID Quote "0" = Ok Go.Nil).
Proof.
  split; [reflexivity|].
  intros [Quote H]. rewrite StringPathFacts.ExpandUUID_zero_symbol_fails in H.
  discriminate H.
Qed.

(** C4: for every string [s] whose first byte is not zero,
    [Expand(Shorten(s))] succeeds and returns [s]. *)
Theorem Expand_Shorten_roundtrip (s : string) :
  Spec.first_byte_nonzero s -> and_then (Shorten s) Expand = Ok s.
Proof.
  intro H. rewrite CodecFacts.Expand_Shorten.
  - rewrite CodecFacts.strip_first_nonzero by assumption. reflexivity.
  - intros ->. exact H.
Qed.

Lemma Expand_Shorten_roundtrip_witness :
  Spec.first_byte_nonzero "hello world"
  /\ and_then (Shorten "hello world") Expand = Ok "hello world"%string.
Proof.
  split; [discriminate|].
  apply (Expand_Shorten_roundtrip "hello world"). discriminate.
Defined.

(** C5, as amended.  In the second text of the package [ExpandUUID]
    passes on the error of the decoding loop; it pads the hexadecimal text
    of the decoded integer [n] with ['0'] up to 32 characters; the padded
    text has 32 characters exactly when [n < 2 ^ 128], and otherwise the
    result is a [DecodeError] that tells the length; with 32 characters
    the hyphens are put back in groups of 8-4-4-4-12, a failure of
    [uuid.Parse] would be returned as a [DecodeError], and in fact the
    result is the UUID of the 16 big-endian bytes of [n].  [ExpandUUID] of
    [shortuuid.go] neither pads nor checks a length: it parses the string
    that [Expand] returns and wraps a failure of [uuid.Parse] in a
    [DecodeError]. *)
Theorem ExpandUUID_checks (Quote : string -> string) (s : string) :
  match ShortuuidHex.baseToInt s with
  | ShortuuidHex.Err e => ShortuuidHex.ExpandUUID Quote s = ShortuuidHex.Err e
  | ShortuuidHex.Ok n =>
      let hexStr := Sprintf_0s 32 (big_Text n 16) in
      ShortuuidHex.decodeHex s = ShortuuidHex.Ok hexStr
      /\ (String.length hexStr = 32%nat <-> n < 2 ^ 128)
      /\ ShortuuidHex.ExpandUUID Quote s =
         (if negb (String.length hexStr =? 32)%nat then
            ShortuuidHex.Err
              (ShortuuidHex.DecodeErr
                 {| ShortuuidHex.ShortID := s;
                    ShortuuidHex.Reason :=
                      "decoded to invalid length: expected 32 hex characters, got "
                      ++ Sprintf_d (Z.of_nat (String.length hexStr)) |})
          else
            match uuid_Parse (ShortuuidHex.hyphenate hexStr) with
            | inl parsedUUID => ShortuuidHex.Ok parsedUUID
            | inr err =>
                ShortuuidHex.Err
                  (ShortuuidHex.DecodeErr
                     {| ShortuuidHex.ShortID := s;
                        ShortuuidHex.Reason :=
                          "failed to parse UUID: " ++ uuid_Error Quote err |})
            end)
      /\ (n < 2 ^ 128 ->
          ShortuuidHex.hyphenate hexStr = uuid_String (be_bytes 16 n)
          /\ ShortuuidHex.ExpandUUID Quote s = ShortuuidHex.Ok (be_bytes 16 n))
  end
  /\ ExpandUUID Quote s =
     match Expand s with
     | Err e => Err e
     | Ok uuidStr =>
         match uuid_Parse uuidStr with
         | inl u => Ok u
         | inr err =>
             Err (DecodeErr
                    {| ShortID := s;
                       Reason := "failed to parse expanded UUID: "
                                 ++ uuid_Error Quote err |})
         end
     end.
Proof.
  split; [|apply StringPathFacts.ExpandUUID_unfold].
  destruct (ShortuuidHex.baseToInt s) as [n|e] eqn:E.
  - pose proof (HexPackageFacts.baseToInt_nonneg s n E) as H0.
    cbv zeta. split; [unfold ShortuuidHex.decodeHex; rewrite E; reflexivity|].
    split.
    { change (2 ^ 128) with (16 ^ Z.of_nat 32).
      apply HexFacts.Sprintf_0s_text_length; [assumption|lia]. }
    split.
    { unfold ShortuuidHex.ExpandUUID, ShortuuidHex.decodeHex. rewrite E.
      reflexivity. }
    intro Hn.
    assert (W : wf_uuid (be_bytes 16 n))
      by (apply UuidFacts.be_bytes_length; split; assumption).
    split; [|apply HexPackageFacts.ExpandUUID_fits; assumption].
    rewrite <- (HexPackageFacts.hyphenate_hex _ W). f_equal.
    rewrite HexFacts.Sprintf_0s_text by assumption. f_equal.
    rewrite <- (HexFacts.padded_text_hex (be_bytes 16 n))
      by (intro X; rewrite X in W; discriminate W).
    rewrite W, UuidFacts.be_bytes_value by assumption. reflexivity.
  - unfold ShortuuidHex.ExpandUUID, ShortuuidHex.decodeHex. rewrite E.
    reflexivity.
Qed.

(** C5 as stated fails for [shortuuid.go]: the 48-character ID of the
    sample UUID decodes to an integer above [2 ^ 128], whose padded
    hexadecimal text has more than 32 characters, and [ExpandUUID]
    returns the UUID. *)
Lemma ExpandUUID_string_path_no_length_check :
  exists n,
    baseToInt sample_long_id = Ok n
    /\ 2 ^ 128 <= n
    /\ String.length (Sprintf_0s 32 (big_Text n 16)) <> 32%nat
    /\ ExpandUUID plain_quote sample_long_id = Ok sample_uuid.
Proof.
  eexists. split; [vm_compute; reflexivity|].
  split; [vm_compute; discriminate|].
  split; [vm_compute; discriminate|vm_compute; reflexivity].
Qed.

(** C6: shortToInt, here [baseToInt], reads the symbols of [s] from left
    to right, starts its accumulator at zero and makes it
    [accumulator * 62 + index] at each symbol, the index being the
    position of the symbol in the 62-symbol alphabet, where upper and
    lower case differ; it fails exactly when some symbol of [s] is not in
    the alphabet, and the error is then a [DecodeError] with the first
    such symbol in its reason and the whole of [s] as its short ID. *)
Theorem baseToInt_accumulates (s : string) :
  let symbols := runes_of_string s in
  baseToInt s =
    match Spec.offending symbols with
    | Some c =>
        Err (DecodeErr
               {| ShortID := s;
                  Reason := "contains invalid character '" ++ Sprintf_c c
                            ++ "' not found in alphabet" |})
    | None => Ok (Spec.accumulate symbols)
    end
  /\ (forall c, Spec.offending symbols = Some c ->
                In c symbols /\ ~ Spec.is_symbol c)
  /\ ((exists e, baseToInt s = Err e) <->
      (exists c, In c symbols /\ ~ Spec.is_symbol c))
  /\ (List.length Spec.alphabet = 62%nat /\ NoDup Spec.alphabet
      /\ Spec.index_of 65 = Some 10 /\ Spec.index_of 97 = Some 36).
Proof.
  intro symbols.
  assert (B : baseToInt s =
              match Spec.offending symbols with
              | Some c =>
                  Err (DecodeErr
                         {| ShortID := s;
                            Reason := "contains invalid character '" ++ Sprintf_c c
                                      ++ "' not found in alphabet" |})
              | None => Ok (Spec.accumulate symbols)
              end).
  { unfold baseToInt. rewrite CodecFacts.baseToInt_loop_spec. reflexivity. }
  split; [exact B|]. split; [apply CodecFacts.offending_some|]. split.
  - rewrite B. split.
    + intros [e He]. destruct (Spec.offending symbols) as [c|] eqn:O;
        [|discriminate].
      exists c. apply CodecFacts.offending_some. assumption.
    + intros (c & Hc & Hn). destruct (Spec.offending symbols) as [c'|] eqn:O.
      * eexists. reflexivity.
      * exfalso. apply Hn.
        pose proof (CodecFacts.offending_none _ O) as F.
        rewrite Forall_forall in F. apply F. assumption.
  - split; [reflexivity|]. split; [|split; reflexivity].
    unfold Spec.alphabet.
    repeat (constructor; [cbn; intuition discriminate|]). constructor.
Qed.

(** C7: [Shorten(input)] fails exactly when [input] is the empty string,
    and the error is then an [EncodeError] with the input and a reason;
    for any other input it returns a short ID: a string, not empty, of
    symbols of the alphabet. *)
Theorem Shorten_fails_iff_empty (input : string) :
  ((exists e, Shorten input = Err e) <-> input = EmptyString)
  /\ (forall e, Shorten input = Err e ->
                e = EncodeErr {| UUID := input;
                                 EncodeReason := "input string cannot be empty" |})
  /\ ((exists id, Shorten input = Ok id) <-> input <> EmptyString)
  /\ (forall id, Shorten input = Ok id ->
                 id <> EmptyString /\ Forall Spec.is_symbol (runes_of_string id)).
Proof.
  unfold Shorten, encode. destruct (String.eqb_spec input EmptyString) as [->|N].
  - repeat split.
    + intros _. eexists. reflexivity.
    + intros e H. injection H as <-. reflexivity.
    + intros [id H]. discriminate H.
    + intros H. congruence.
    + discriminate H.
    + discriminate H.
  - repeat split.
    + intros [e H]. discriminate H.
    + intros H. contradiction.
    + intros e H. discriminate H.
    + intros _. assumption.
    + intros _. eexists. reflexivity.
    + injection H as <-. apply ShortIdFacts.intToBase_nonempty.
      apply big_SetBytes_nonneg.
    + injection H as <-. apply ShortIdFacts.intToBase_symbols.
      apply big_SetBytes_nonneg.
Qed.

(** C8: for every integer [n] that is not negative, intToShort, here
    [intToBase], gives the symbols of the remainders of the repeated
    division of [n] by 62, collected least significant first and then
    reversed; the result is never empty, it is the single symbol of index
    0 when [n] is zero, and it does not begin with that symbol otherwise;
    read back from the left it gives [n]. *)
Theorem intToBase_most_significant_first (n : Z) :
  0 <= n ->
  intToBase n = Spec.intToShort n
  /\ intToBase n <> EmptyString
  /\ (n = 0 -> intToBase n = string_of_runes [Spec.symbol 0]
               /\ intToBase n = "0"%string)
  /\ (n <> 0 -> exists c rest, intToBase n = String c rest /\ c <> "0"%char)
  /\ baseToInt (intToBase n) = Ok n.
Proof.
  intro Hn. split; [apply ShortIdFacts.intToBase_intToShort; assumption|].
  split; [apply ShortIdFacts.intToBase_nonempty; assumption|].
  split; [intros ->; split; reflexivity|].
  split; [intro NZ; apply ShortIdFacts.intToBase_head; lia|].
  apply EngineFacts.baseToInt_intToBase. assumption.
Qed.

Lemma intToBase_most_significant_first_witness :
  0 <= 3845
  /\ (intToBase 3845 = Spec.intToShort 3845
      /\ intToBase 3845 <> EmptyString
      /\ (3845 = 0 -> intToBase 3845 = string_of_runes [Spec.symbol 0]
                      /\ intToBase 3845 = "0"%string)
      /\ (3845 <> 0 ->
          exists c rest, intToBase 3845 = String c rest /\ c <> "0"%char)
      /\ baseToInt (intToBase 3845) = Ok 3845).
Proof.
  split; [lia|].
  apply (intToBase_most_significant_first 3845). lia.
Defined.

(** C9: shortToInt, here [baseToInt], of the empty string is zero with
    no error, and [Expand] of the empty string does not fail and returns the empty
    string. *)
Theorem empty_short_id :
  baseToInt EmptyString = Ok 0 /\ Expand EmptyString = Ok EmptyString.
Proof. split; reflexivity. Qed.

(** C10: for every string [s] that is not empty, [Expand(Shorten(s))]
    succeeds and is [s] without its leading zero bytes; when every byte
    of [s] is zero, [Shorten(s)] is the single zero symbol and the round
    trip gives the empty string. *)
Theorem Expand_Shorten_strips_zero_bytes (s : string) :
  s <> EmptyString ->
  and_then (Shorten s) Expand = Ok (Spec.strip_zero_bytes s)
  /\ ((forall c, In c (list_ascii_of_string s) -> c = zero) ->
      Shorten s = Ok "0"%string
      /\ and_then (Shorten s) Expand = Ok EmptyString).
Proof.
  intro H. split; [apply CodecFacts.Expand_Shorten; assumption|].
  intro Z0. split.
  - unfold Shorten. rewrite CodecFacts.encode_nonempty by assumption.
    rewrite ShortIdFacts.all_zero_value by assumption. reflexivity.
  - rewrite CodecFacts.Expand_Shorten by assumption.
    rewrite CodecFacts.strip_all_zero by assumption. reflexivity.
Qed.

Lemma Expand_Shorten_strips_zero_bytes_witness :
  zero_led <> EmptyString
  /\ (and_then (Shorten zero_led) Expand = Ok (Spec.strip_zero_bytes zero_led)
      /\ ((forall c, In c (list_ascii_of_string zero_led) -> c = zero) ->
          Shorten zero_led = Ok "0"%string
          /\ and_then (Shorten zero_led) Expand = Ok EmptyString)).
Proof.
  split; [discriminate|].
  apply (Expand_Shorten_strips_zero_bytes zero_led). discriminate.
Defined.

(** The vectors of the README, computed: a plain string through
    [Shorten], and two UUIDs through the [ShortenUUID] of the second
    text, one of them with a 21-character ID. *)
Example Shorten_hello_world : Shorten "hello world" = Ok "AAwf93rvy4aWQVw"%string.
Proof. reflexivity. Qed.

Example ShortenUUID_sample :
  uuid_String sample_uuid = "4890586e-32a5-4f9c-a000-2a2bb68eb1ce"%string
  /\ ShortuuidHex.ShortenUUID sample_uuid = ShortuuidHex.Ok sample_short_id
  /\ ShortuuidHex.ExpandUUID plain_quote sample_short_id
     = ShortuuidHex.Ok sample_uuid.
Proof. repeat split; reflexivity. Qed.

Example ShortenUUID_short_vector :
  match uuid_Parse "1d152c86-c436-4d47-9269-006c7469b867" with
  | inl u => ShortuuidHex.ShortenUUID u
  | inr _ => ShortuuidHex.Ok EmptyString
  end = ShortuuidHex.Ok "ssS9A1oUhTFAbdjd6w93P"%string.
Proof. reflexivity. Qed.

(** The round trip on two zero bytes, computed. *)
Example Expand_Shorten_zero_bytes :
  Shorten (String zero (String zero EmptyString)) = Ok "0"%string
  /\ Expand "0" = Ok EmptyString.
Proof. split; reflexivity. Qed.

(** * Further properties of the package *)

(** ** Bytes and runes of a string of symbols *)

Module SymbolFacts.

Import EngineFacts.

Lemma lor_lower a b : 0 <= a -> 0 <= b -> a <= Z.lor a b.
Proof.
  intros Ha Hb.
  assert (E : Z.ldiff a (Z.lor a b) = 0).
  { apply Z.bits_inj'. intros n Hn.
    rewrite Z.ldiff_spec, Z.lor_spec, Z.bits_0.
    destruct (Z.testbit a n), (Z.testbit b n); reflexivity. }
  pose proof (Z.sub_nocarry_ldiff (Z.lor a b) a E) as S.
  assert (0 <= Z.ldiff (Z.lor a b) a)
    by (apply Z.ldiff_nonneg; left; apply Z.lor_nonneg; split; assumption).
  lia.
Qed.

Lemma lor_lower_r a b : 0 <= a -> 0 <= b -> b <= Z.lor a b.
Proof. intros. rewrite Z.lor_comm. apply lor_lower; assumption. Qed.

Lemma land_mask x k : 0 <= k -> Z.land x (Z.ones k) = x mod 2 ^ k.
Proof. apply Z.land_ones. Qed.

(** A symbol is an ASCII digit or letter. *)
Lemma symbol_range r : Spec.is_symbol r -> 48 <= r <= 122.
Proof.
  unfold Spec.is_symbol, Spec.alphabet. cbn [seq map app In].
  intro H. repeat (destruct H as [H|H]; [subst; cbn; lia|]). contradiction.
Qed.

Lemma symbol_alnum c : Spec.is_symbol (byte_val c) <-> Spec.alnum c = true.
Proof.
  rewrite <- index_of_is_symbol.
  destruct c; vm_compute; split; congruence.
Qed.

Lemma alnum_ascii c : Spec.alnum c = true -> ascii_rune (byte_val c).
Proof.
  intro H. apply symbol_alnum, symbol_range in H.
  unfold ascii_rune. lia.
Qed.

Lemma lor_bound_l a x : 128 <= a -> 0 <= x -> 128 <= Z.lor a x.
Proof.
  intros Ha Hx. eapply Z.le_trans; [exact Ha|]. apply lor_lower; lia.
Qed.

Lemma lor_bound_m a b c :
  0 <= a -> 128 <= b -> 0 <= c -> 128 <= Z.lor a (Z.lor b c).
Proof.
  intros Ha Hb Hc. eapply Z.le_trans; [apply (lor_bound_l b c); assumption|].
  apply lor_lower_r; [assumption|]. apply Z.lor_nonneg. lia.
Qed.

Lemma masked_nonneg x k : 0 <= k -> 0 <= Z.land x (Z.ones k).
Proof.
  intro H. rewrite land_mask by assumption.
  apply Z.mod_pos_bound. apply Z.pow_pos_nonneg; lia.
Qed.

Lemma masked_shift_nonneg x k j : 0 <= k -> 0 <= Z.shiftl (Z.land x (Z.ones k)) j.
Proof. intro H. apply Z.shiftl_nonneg. apply masked_nonneg. exact H. Qed.

Ltac masks_nonneg :=
  repeat first
    [ apply Z.lor_nonneg; split
    | apply masked_shift_nonneg; lia
    | apply masked_nonneg; lia ].

(** The high part of a masked and shifted byte. *)
Lemma masked_shift_lower x j k m :
  0 <= j -> 0 <= k -> 0 <= m -> m <= x mod 2 ^ j ->
  m * 2 ^ k <= Z.shiftl (Z.land x (Z.ones j)) k.
Proof.
  intros Hj Hk Hm H. rewrite Z.shiftl_mul_pow2, land_mask by assumption.
  assert (0 < 2 ^ k) by (apply Z.pow_pos_nonneg; lia). nia.
Qed.

Ltac shifted_lower j m :=
  eapply Z.le_trans;
  [|apply (masked_shift_lower _ j _ m); [lia|lia|lia|]];
  [vm_compute; discriminate
  |let p := eval vm_compute in (2 ^ j) in change (2 ^ j) with p;
   Z.div_mod_to_equations; lia].

(** A byte from 0x80 up never starts a rune below 0x80. *)
Lemma decode_runes_high s0 t1 :
  0x80 <= s0 ->
  exists r rest, decode_runes (s0 :: t1) = r :: rest /\ 128 <= r.
Proof.
  intros H0.
  assert (RE : 128 <= RuneError) by (unfold RuneError; lia).
  assert (Bad : forall l, exists r rest, RuneError :: l = r :: rest /\ 128 <= r)
    by (intro l; exists RuneError, l; split; [reflexivity|exact RE]).
  cbn [decode_runes].
  replace (s0 <? 0x80) with false by (symmetry; apply Z.ltb_ge; lia).
  unfold utf8_first.
  destruct ((s0 <? 0xC2) || (0xF4 <? s0)) eqn:C0; [apply Bad|].
  apply orb_false_iff in C0 as [C1 C2].
  apply Z.ltb_ge in C1. apply Z.ltb_ge in C2.
  destruct t1 as [|s1 t2].
  { repeat match goal with
           | |- context [if ?c then _ else _] => destruct c
           end; apply Bad. }
  change 0x1F with (Z.ones 5). change 0x0F with (Z.ones 4).
  change 0x07 with (Z.ones 3). change 0x3F with (Z.ones 6).
  destruct (s0 <=? 0xDF) eqn:D1.
  { apply Z.leb_le in D1.
    destruct ((s1 <? 0x80) || (0xBF <? s1)); [apply Bad|].
    eexists _, _; split; [reflexivity|].
    apply lor_bound_l; [shifted_lower 5 2|masks_nonneg]. }
  apply Z.leb_gt in D1.
  destruct (s0 =? 0xE0) eqn:E0.
  { destruct ((s1 <? 0xA0) || (0xBF <? s1)) eqn:R1; [apply Bad|].
    apply orb_false_iff in R1 as [R1 R2].
    apply Z.ltb_ge in R1. apply Z.ltb_ge in R2.
    destruct t2 as [|s2 t3]; [apply Bad|].
    destruct (negb (continuation s2)); [apply Bad|].
    eexists _, _; split; [reflexivity|].
    apply lor_bound_m; [masks_nonneg|shifted_lower 6 2|masks_nonneg]. }
  apply Z.eqb_neq in E0.
  destruct (s0 =? 0xED) eqn:ED.
  { apply Z.eqb_eq in ED.
    destruct ((s1 <? 0x80) || (0x9F <? s1)); [apply Bad|].
    destruct t2 as [|s2 t3]; [apply Bad|].
    destruct (negb (continuation s2)); [apply Bad|].
    eexists _, _; split; [reflexivity|].
    apply lor_bound_l; [shifted_lower 4 1|masks_nonneg]. }
  destruct (s0 <=? 0xEF) eqn:EF.
  { apply Z.leb_le in EF.
    destruct ((s1 <? 0x80) || (0xBF <? s1)); [apply Bad|].
    destruct t2 as [|s2 t3]; [apply Bad|].
    destruct (negb (continuation s2)); [apply Bad|].
    eexists _, _; split; [reflexivity|].
    apply lor_bound_l; [shifted_lower 4 1|masks_nonneg]. }
  apply Z.leb_gt in EF.
  destruct (s0 =? 0xF0) eqn:F0.
  { destruct ((s1 <? 0x90) || (0xBF <? s1)) eqn:R1; [apply Bad|].
    apply orb_false_iff in R1 as [R1 R2].
    apply Z.ltb_ge in R1. apply Z.ltb_ge in R2.
    destruct t2 as [|s2 t3]; [apply Bad|].
    destruct (negb (continuation s2)); [apply Bad|].
    destruct t3 as [|s3 t4]; [apply Bad|].
    destruct (negb (continuation s3)); [apply Bad|].
    eexists _, _; split; [reflexivity|].
    apply lor_bound_m; [masks_nonneg|shifted_lower 6 1|masks_nonneg]. }
  apply Z.eqb_neq in F0.
  assert (Last : forall lo hi,
    exists r rest,
        (if (s1 <? lo) || (hi <? s1) then RuneError :: decode_runes (s1 :: t2)
         else if 4 <=? 2 then
           Z.lor (Z.shiftl (Z.land s0 (Z.ones 5)) 6) (Z.land s1 (Z.ones 6))
           :: decode_runes t2
         else
           match t2 with
           | [] => RuneError :: decode_runes (s1 :: t2)
           | s2 :: t3 =>
               if negb (continuation s2) then RuneError :: decode_runes (s1 :: t2)
               else if 4 <=? 3 then
                 Z.lor (Z.shiftl (Z.land s0 (Z.ones 4)) 12)
                   (Z.lor (Z.shiftl (Z.land s1 (Z.ones 6)) 6) (Z.land s2 (Z.ones 6)))
                 :: decode_runes t3
               else
                 match t3 with
                 | [] => RuneError :: decode_runes (s1 :: t2)
                 | s3 :: t4 =>
                     if negb (continuation s3)
                     then RuneError :: decode_runes (s1 :: t2)
                     else
                       Z.lor (Z.shiftl (Z.land s0 (Z.ones 3)) 18)
                         (Z.lor (Z.shiftl (Z.land s1 (Z.ones 6)) 12)
                            (Z.lor (Z.shiftl (Z.land s2 (Z.ones 6)) 6)
                               (Z.land s3 (Z.ones 6))))
                       :: decode_runes t4
                 end
           end)
        = r :: rest /\ 128 <= r).
  { intros lo hi.
    destruct ((s1 <? lo) || (hi <? s1)); [apply Bad|].
    destruct t2 as [|s2 t3]; [apply Bad|].
    destruct (negb (continuation s2)); [apply Bad|].
    destruct t3 as [|s3 t4]; [apply Bad|].
    destruct (negb (continuation s3)); [apply Bad|].
    eexists _, _; split; [reflexivity|].
    apply lor_bound_l; [shifted_lower 3 1|masks_nonneg]. }
  destruct (s0 =? 0xF4); apply Last.
Qed.

Lemma decode_runes_low s0 t1 :
  s0 < 0x80 -> decode_runes (s0 :: t1) = s0 :: decode_runes t1.
Proof.
  intro H. cbn [decode_runes].
  replace (s0 <? 0x80) with true by (symmetry; apply Z.ltb_lt; assumption).
  reflexivity.
Qed.

(** If every rune of some bytes is a symbol, every byte is one. *)
Lemma runes_symbols_bytes bs :
  Forall Spec.is_symbol (decode_runes (map byte_val bs)) ->
  forallb Spec.alnum bs = true.
Proof.
  induction bs as [|c bs IH]; intro H; [reflexivity|].
  cbn [map] in H. cbn [forallb].
  destruct (Z_lt_le_dec (byte_val c) 0x80) as [Lo|Hi].
  - rewrite decode_runes_low in H by assumption.
    inversion H as [|? ? Hc Hr]; subst.
    apply symbol_alnum in Hc. rewrite Hc, IH by assumption. reflexivity.
  - destruct (decode_runes_high (byte_val c) (map byte_val bs) Hi)
      as (r & rest & E & Hr).
    rewrite E in H. inversion H as [|? ? Hc _]; subst.
    apply symbol_range in Hc. lia.
Qed.

Lemma bytes_symbols_runes bs :
  forallb Spec.alnum bs = true ->
  decode_runes (map byte_val bs) = map byte_val bs
  /\ Forall Spec.is_symbol (map byte_val bs).
Proof.
  induction bs as [|c bs IH]; intro H; [split; [reflexivity|constructor]|].
  cbn [forallb] in H. apply andb_true_iff in H as [Hc Hb].
  destruct (IH Hb) as [I1 I2]. cbn [map].
  pose proof (alnum_ascii c Hc) as [_ A].
  rewrite decode_runes_low, I1 by assumption.
  split; [reflexivity|]. constructor; [apply symbol_alnum; assumption|exact I2].
Qed.

Lemma offending_all chars :
  Forall Spec.is_symbol chars -> Spec.offending chars = None.
Proof.
  induction 1 as [|c chars Hc _ IH]; [reflexivity|].
  cbn [Spec.offending find]. apply index_of_is_symbol in Hc.
  destruct (Spec.index_of c); [exact IH|congruence].
Qed.

Lemma all_symbols_runes s :
  Spec.all_symbols s ->
  runes_of_string s = map byte_val (bytes_of_string s)
  /\ Forall Spec.is_symbol (runes_of_string s).
Proof.
  intro H. unfold runes_of_string.
  destruct (bytes_symbols_runes _ H) as [E F]. rewrite E. split; [reflexivity|exact F].
Qed.

(** [baseToInt] succeeds exactly on the strings of symbols, with their
    value in base 62. *)
Lemma baseToInt_value s : Spec.all_symbols s -> baseToInt s = Ok (Spec.value s).
Proof.
  intro H. unfold baseToInt. rewrite CodecFacts.baseToInt_loop_spec.
  destruct (all_symbols_runes s H) as [_ F].
  rewrite (offending_all _ F). reflexivity.
Qed.

Lemma baseToInt_all_symbols s n : baseToInt s = Ok n -> Spec.all_symbols s.
Proof.
  unfold baseToInt. rewrite CodecFacts.baseToInt_loop_spec.
  destruct (Spec.offending (runes_of_string s)) eqn:O; [discriminate|].
  intros _. apply runes_symbols_bytes. apply CodecFacts.offending_none. exact O.
Qed.

Lemma value_nonneg s : 0 <= Spec.value s.
Proof. apply HexPackageFacts.accumulate_nonneg. reflexivity. Qed.

End SymbolFacts.

(** ** Short IDs and their values *)

Module ValueFacts.

Import EngineFacts SymbolFacts.

Lemma position_nth c d : forall l k,
  Spec.position c l = Some k -> nth (Z.to_nat k) l d = c.
Proof.
  induction l as [|x l IH]; intros k H; [discriminate|].
  cbn [Spec.position] in H. destruct (c =? x) eqn:E.
  - injection H as <-. apply Z.eqb_eq in E. subst. reflexivity.
  - destruct (Spec.position c l) as [j|] eqn:P; [|discriminate].
    injection H as <-. pose proof (position_nonneg c l j P).
    rewrite Z2Nat.inj_succ by assumption. cbn [nth]. apply IH. reflexivity.
Qed.

Lemma symbol_index_of r k : Spec.index_of r = Some k -> Spec.symbol k = r.
Proof. apply position_nth. Qed.

Lemma accumulate_digits chars :
  Spec.accumulate chars = Radix.undigits 62 (map Spec.digit_of chars).
Proof.
  unfold Spec.accumulate, Radix.undigits, Radix.horner.
  assert (G : forall acc,
             fold_left
               (fun accumulator c =>
                  accumulator * 62
                  + match Spec.index_of c with Some i => i | None => 0 end)
               chars acc
             = fold_left (fun a d => a * 62 + d) (map Spec.digit_of chars) acc).
  { induction chars as [|c chars IH]; intro acc; [reflexivity|].
    cbn [fold_left map]. apply IH. }
  apply G.
Qed.

Lemma digits_of_symbols chars :
  Forall Spec.is_symbol chars ->
  Radix.in_range 62 (map Spec.digit_of chars)
  /\ map at_index (map Spec.digit_of chars) = chars.
Proof.
  induction 1 as [|c chars Hc _ [I1 I2]]; [split; [constructor|reflexivity]|].
  cbn [map]. unfold Spec.digit_of at 1 3.
  apply index_of_is_symbol in Hc.
  destruct (Spec.index_of c) as [k|] eqn:E; [|congruence].
  pose proof (index_of_range c k E) as R.
  split; [constructor; assumption|].
  rewrite at_index_symbol, (symbol_index_of c k E), I2 by assumption.
  reflexivity.
Qed.

Lemma string_of_runes_of_string s :
  Spec.all_symbols s -> string_of_runes (runes_of_string s) = s.
Proof.
  intro H. destruct (all_symbols_runes s H) as [E F]. rewrite E in *.
  unfold string_of_runes. rewrite flat_map_utf8_ascii.
  - rewrite map_byte_of_val. apply string_of_bytes_of_string.
  - eapply Forall_impl; [|exact F].
    intros r Hr. apply symbol_range in Hr. unfold ascii_rune. lia.
Qed.

(** What [intToBase] writes is a short ID. *)
Lemma intToBase_short_id n : 0 <= n -> Spec.short_id (intToBase n).
Proof.
  intro Hn. split; [|split].
  - apply runes_symbols_bytes. apply ShortIdFacts.intToBase_symbols. assumption.
  - apply ShortIdFacts.intToBase_nonempty. assumption.
  - intros rest E. destruct (Z.eq_dec n 0) as [->|NZ].
    + injection E as <-. reflexivity.
    + destruct (ShortIdFacts.intToBase_head n ltac:(lia)) as (c & r & E' & Hc).
      rewrite E' in E. injection E as -> _. contradiction.
Qed.

Lemma value_zero_symbol : Spec.value "0" = 0.
Proof. reflexivity. Qed.

(** The digits of a short ID other than ["0"] are a canonical numeral. *)
Lemma short_id_canonical id :
  Spec.short_id id -> id <> "0"%string ->
  Radix.canonical 62 (map Spec.digit_of (runes_of_string id))
  /\ map Spec.digit_of (runes_of_string id) <> [].
Proof.
  intros (Ha & Hne & Hz) H0.
  destruct (all_symbols_runes id Ha) as [E F].
  destruct (digits_of_symbols _ F) as [R M].
  destruct id as [|c rest]; [congruence|].
  rewrite E in *. rewrite CodecFacts.bytes_of_String in *. cbn [map] in *.
  split; [|discriminate]. split; [exact R|].
  intros d ds' X. injection X as <- _. intro D0.
  injection M as M _. rewrite D0 in M. change (at_index 0) with 48 in M.
  assert (c = "0"%char).
  { rewrite <- (ascii_of_byte_of_ascii c).
    rewrite <- (byte_of_val (byte_of_ascii c)), <- M. reflexivity. }
  subst c. rewrite (Hz rest eq_refl) in H0. congruence.
Qed.

(** [intToBase] writes a short ID back from its value. *)
Lemma intToBase_value id : Spec.short_id id -> intToBase (Spec.value id) = id.
Proof.
  intro H. destruct (string_dec id "0") as [->|N0]; [reflexivity|].
  destruct (short_id_canonical id H N0) as [C Ne].
  destruct H as (Ha & _ & _).
  unfold Spec.value. rewrite accumulate_digits.
  rewrite intToBase_digits by (apply canonical_positive; [lia|assumption|assumption]).
  rewrite digits_undigits by (lia || assumption).
  destruct (all_symbols_runes id Ha) as [_ F].
  destruct (digits_of_symbols _ F) as [_ M]. rewrite M.
  apply string_of_runes_of_string. assumption.
Qed.

Lemma value_positive id : Spec.short_id id -> id <> "0"%string -> 0 < Spec.value id.
Proof.
  intros H N0. destruct (short_id_canonical id H N0) as [C Ne].
  unfold Spec.value. rewrite accumulate_digits.
  apply canonical_positive; [lia|assumption|assumption].
Qed.

Lemma value_intToBase n : 0 <= n -> Spec.value (intToBase n) = n.
Proof.
  intro Hn. pose proof (baseToInt_intToBase n Hn) as B.
  rewrite baseToInt_value in B by (apply intToBase_short_id; assumption).
  injection B as B. exact B.
Qed.

End ValueFacts.

(** ** Lengths, collisions and the way back *)

Module LengthFacts.

Import EngineFacts SymbolFacts ValueFacts.

Lemma big_SetBytes_strip bs : big_SetBytes (strip_zeros bs) = big_SetBytes bs.
Proof.
  unfold big_SetBytes. rewrite <- trim_byte_vals. apply undigits_trim.
Qed.

Lemma bytes_strip_zero_bytes s :
  bytes_of_string (Spec.strip_zero_bytes s) = strip_zeros (bytes_of_string s).
Proof.
  rewrite <- CodecFacts.strip_zero_bytes_bytes. apply bytes_of_string_of_bytes.
Qed.

Lemma string_of_runes_length rs :
  Forall ascii_rune rs -> String.length (string_of_runes rs) = List.length rs.
Proof.
  intro H. unfold string_of_runes.
  rewrite HexFacts.string_of_bytes_length, flat_map_utf8_ascii by assumption.
  apply length_map.
Qed.

Lemma intToBase_length n :
  0 < n -> String.length (intToBase n) = List.length (Radix.digits 62 n).
Proof.
  intro Hn. rewrite intToBase_digits by assumption.
  rewrite string_of_runes_length, length_map; [reflexivity|].
  apply Forall_forall. intros r Hr. apply in_map_iff in Hr as (d & <- & _).
  apply at_index_ascii.
Qed.

(** [intToBase n] has at most [k] symbols exactly when [n < 62 ^ k]. *)
Lemma intToBase_length_le n k :
  0 <= n -> (0 < k)%nat ->
  (String.length (intToBase n) <= k)%nat <-> n < 62 ^ Z.of_nat k.
Proof.
  intros Hn Hk. destruct (Z.eq_dec n 0) as [->|NZ].
  - cbn [intToBase String.length]. split; [|intros _; cbn; lia].
    intros _. apply Z.pow_pos_nonneg; lia.
  - rewrite intToBase_length by lia. apply digits_length_le; lia.
Qed.

Lemma string_length_bytes s : String.length s = List.length (bytes_of_string s).
Proof.
  rewrite <- (string_of_bytes_of_string s) at 1.
  apply HexFacts.string_of_bytes_length.
Qed.

Lemma bytes_of_string_app s1 s2 :
  bytes_of_string (s1 ++ s2) = bytes_of_string s1 ++ bytes_of_string s2.
Proof.
  induction s1 as [|c s1 IH]; [reflexivity|].
  cbn [String.append]. rewrite !CodecFacts.bytes_of_String, IH. reflexivity.
Qed.

Lemma big_Bytes_nonempty n : 0 < n -> big_Bytes n <> [].
Proof.
  intros Hn E. unfold big_Bytes in E. apply map_eq_nil in E.
  rewrite Z.abs_eq in E by lia.
  exact (digits_nonempty 256 ltac:(lia) n Hn E).
Qed.

Lemma string_of_bytes_nonempty bs : bs <> [] -> string_of_bytes bs <> EmptyString.
Proof.
  intros H E. apply H. rewrite <- (bytes_of_string_of_bytes bs), E. reflexivity.
Qed.

(** The bytes of [Bytes] never start with a zero byte. *)
Lemma big_Bytes_stripped n : 0 <= n -> strip_zeros (big_Bytes n) = big_Bytes n.
Proof.
  intro Hn. rewrite <- (UuidFacts.big_SetBytes_Bytes n Hn) at 2.
  symmetry. apply big_Bytes_SetBytes.
Qed.

Lemma forallb_false_witness {A} (f : A -> bool) l :
  forallb f l = false -> exists x, In x l /\ f x = false.
Proof.
  induction l as [|x l IH]; [discriminate|].
  cbn [forallb]. destruct (f x) eqn:E.
  - intro H. destruct (IH H) as (y & Hy & Fy). exists y. split; [right|]; assumption.
  - intros _. exists x. split; [left; reflexivity|assumption].
Qed.

End LengthFacts.

(** * Further properties of [shortuuid.go] *)

Import SymbolFacts ValueFacts LengthFacts.

(** X1: two strings that are not empty get the same short ID exactly
    when they are the same up to leading zero bytes: [Shorten] has no
    other collision. *)
Theorem Shorten_collisions (s1 s2 : string) :
  s1 <> EmptyString -> s2 <> EmptyString ->
  (Shorten s1 = Shorten s2
   <-> Spec.strip_zero_bytes s1 = Spec.strip_zero_bytes s2).
Proof.
  intros H1 H2. split; intro E.
  - pose proof (CodecFacts.Expand_Shorten s1 H1) as R1.
    pose proof (CodecFacts.Expand_Shorten s2 H2) as R2.
    rewrite E, R2 in R1. injection R1 as R1. symmetry. exact R1.
  - unfold Shorten. rewrite !CodecFacts.encode_nonempty by assumption.
    do 2 f_equal.
    rewrite <- (big_SetBytes_strip (bytes_of_string s1)).
    rewrite <- (big_SetBytes_strip (bytes_of_string s2)).
    rewrite <- !bytes_strip_zero_bytes, E. reflexivity.
Qed.

Lemma Shorten_collisions_witness :
  zero_led <> EmptyString /\ "A"%string <> EmptyString
  /\ (Shorten zero_led = Shorten "A"
      <-> Spec.strip_zero_bytes zero_led = Spec.strip_zero_bytes "A").
Proof.
  split; [discriminate|]. split; [discriminate|].
  apply (Shorten_collisions zero_led "A"); discriminate.
Defined.

(** X2: shortening what a short ID expands to gives the short ID back,
    except for the zero symbol, which expands to the empty string, which
    [Shorten] refuses. *)
Theorem Shorten_Expand_roundtrip (id : string) :
  Spec.short_id id ->
  and_then (Expand id) Shorten =
  if String.eqb id "0"
  then Err (EncodeErr {| UUID := EmptyString;
                         EncodeReason := "input string cannot be empty" |})
  else Ok id.
Proof.
  intro H. destruct (String.eqb_spec id "0") as [->|N0]; [reflexivity|].
  pose proof (value_positive id H N0) as P.
  pose proof (intToBase_value id H) as V.
  destruct H as (Ha & _ & _).
  unfold Expand, decode. rewrite (baseToInt_value id Ha). cbn [and_then].
  unfold Shorten.
  rewrite CodecFacts.encode_nonempty
    by (apply string_of_bytes_nonempty, big_Bytes_nonempty; assumption).
  rewrite bytes_of_string_of_bytes, UuidFacts.big_SetBytes_Bytes by lia.
  rewrite V. reflexivity.
Qed.

Lemma Shorten_Expand_roundtrip_witness :
  Spec.short_id "AAwf93rvy4aWQVw"
  /\ and_then (Expand "AAwf93rvy4aWQVw") Shorten =
     (if String.eqb "AAwf93rvy4aWQVw" "0"
      then Err (EncodeErr {| UUID := EmptyString;
                             EncodeReason := "input string cannot be empty" |})
      else Ok "AAwf93rvy4aWQVw"%string).
Proof.
  assert (H : Spec.short_id "AAwf93rvy4aWQVw").
  { split; [reflexivity|]. split; [discriminate|]. intros rest E. discriminate E. }
  split; [exact H|].
  apply (Shorten_Expand_roundtrip "AAwf93rvy4aWQVw" H).
Defined.

(** X3: zero symbols in front of a short ID change nothing in what it
    decodes to: [baseToInt] and [Expand] give for ["0" ++ s] what they
    give for [s], when they give something. *)
Theorem Expand_leading_zero_symbol (s : string) :
  (forall n, baseToInt (String "0" s) = Ok n <-> baseToInt s = Ok n)
  /\ (forall t, Expand (String "0" s) = Ok t <-> Expand s = Ok t).
Proof.
  assert (B : forall n, baseToInt (String "0" s) = Ok n <-> baseToInt s = Ok n).
  { intro n. unfold baseToInt. rewrite !CodecFacts.baseToInt_loop_spec.
    change (runes_of_string (String "0" s)) with (48 :: runes_of_string s).
    cbn [Spec.offending find fold_left].
    change (Spec.index_of 48) with (Some 0). cbv iota. unfold big_NewInt.
    change (0 * 62 + 0) with 0.
    fold (Spec.offending (runes_of_string s)).
    destruct (Spec.offending (runes_of_string s)); [split; discriminate|].
    reflexivity. }
  split; [exact B|].
  intro t. unfold Expand, decode.
  destruct (baseToInt (String "0" s)) as [n|e].
  - rewrite (proj1 (B n) eq_refl). reflexivity.
  - destruct (baseToInt s) as [m|e']; [|split; discriminate].
    discriminate (proj2 (B m) eq_refl).
Qed.

(** X4: a string that [Expand] returns is the minimal big-endian form
    of the base-62 value of the short ID: it has no leading zero byte and
    its bytes make that value; and the short ID was made of symbols. *)
Theorem Expand_result (s t : string) :
  Expand s = Ok t ->
  Spec.all_symbols s
  /\ Spec.strip_zero_bytes t = t
  /\ big_SetBytes (bytes_of_string t) = Spec.value s.
Proof.
  unfold Expand, decode. intro H.
  destruct (baseToInt s) as [n|e] eqn:E; [|discriminate].
  injection H as <-.
  pose proof (baseToInt_all_symbols s n E) as A.
  rewrite (baseToInt_value s A) in E. injection E as <-.
  pose proof (value_nonneg s) as V.
  split; [exact A|]. split.
  - rewrite <- CodecFacts.strip_zero_bytes_bytes, bytes_of_string_of_bytes.
    rewrite big_Bytes_stripped by assumption. reflexivity.
  - rewrite bytes_of_string_of_bytes. apply UuidFacts.big_SetBytes_Bytes.
    assumption.
Qed.

Lemma Expand_result_witness :
  Expand "AAwf93rvy4aWQVw" = Ok "hello world"%string
  /\ (Spec.all_symbols "AAwf93rvy4aWQVw"
      /\ Spec.strip_zero_bytes "hello world" = "hello world"%string
      /\ big_SetBytes (bytes_of_string "hello world")
         = Spec.value "AAwf93rvy4aWQVw").
Proof.
  split; [reflexivity|].
  apply (Expand_result "AAwf93rvy4aWQVw" "hello world"). reflexivity.
Defined.

(** X5: [Expand] succeeds exactly on the strings whose bytes are all
    ASCII digits and letters, and fails exactly when some byte is not
    one: a byte of a multi-byte UTF-8 character, or a stray byte from
    0x80 up, is refused like any other byte outside the alphabet. *)
Theorem Expand_accepts_symbols (s : string) :
  ((exists t, Expand s = Ok t) <-> Spec.all_symbols s)
  /\ ((exists e, Expand s = Err e) <->
      (exists c, In c (bytes_of_string s) /\ Spec.alnum c = false)).
Proof.
  assert (A : (exists t, Expand s = Ok t) <-> Spec.all_symbols s).
  { unfold Expand, decode. split.
    - intros [t H]. destruct (baseToInt s) as [n|e] eqn:E; [|discriminate].
      eapply baseToInt_all_symbols. exact E.
    - intro H. rewrite (baseToInt_value s H). eexists. reflexivity. }
  split; [exact A|]. split.
  - intros [e He].
    destruct (forallb Spec.alnum (bytes_of_string s)) eqn:F.
    + apply A in F as [t Ht]. congruence.
    + apply forallb_false_witness. exact F.
  - intros (c & Hc & Hn).
    destruct (Expand s) as [t|e] eqn:E; [|eexists; reflexivity].
    exfalso. assert (Hs : Spec.all_symbols s) by (apply A; eexists; reflexivity).
    unfold Spec.all_symbols in Hs. rewrite forallb_forall in Hs.
    rewrite (Hs c Hc) in Hn. discriminate.
Qed.

Section ExtraWithQuote.

Variable Quote : string -> string.

(** X6: every error of [Expand] and of [ExpandUUID] is a [DecodeError]
    whose short ID is the whole input, so that its message starts with
    that input between quotes. *)
Theorem decode_errors_carry_input (s : string) :
  (forall e, Expand s = Err e ->
     exists d, e = DecodeErr d /\ ShortID d = s)
  /\ (forall e, ExpandUUID Quote s = Err e ->
        exists d, e = DecodeErr d /\ ShortID d = s
                  /\ DecodeError_Error d
                     = ("decode error for short ID '" ++ s ++ "': " ++ Reason d)%string).
Proof.
  assert (A : forall e, Expand s = Err e -> exists d, e = DecodeErr d /\ ShortID d = s).
  { unfold Expand, decode, baseToInt. rewrite CodecFacts.baseToInt_loop_spec.
    intros e H. destruct (Spec.offending (runes_of_string s)); [|discriminate].
    injection H as <-. eexists. split; reflexivity. }
  split; [exact A|].
  intros e H. rewrite StringPathFacts.ExpandUUID_unfold in H.
  destruct (Expand s) as [t|e'] eqn:E.
  - destruct (uuid_Parse t); [discriminate|]. injection H as <-.
    eexists. repeat split.
  - injection H as <-. destruct (A e' eq_refl) as (d & -> & Hd).
    exists d. repeat split; [exact Hd|].
    unfold DecodeError_Error. rewrite Hd. reflexivity.
Qed.

End ExtraWithQuote.

(** ** The UUID functions, further *)

Module UuidLengthFacts.

Import UuidFacts LengthFacts ValueFacts.

Lemma big_Bytes_length_le n k :
  0 <= n < 256 ^ Z.of_nat k -> (List.length (big_Bytes n) <= k)%nat.
Proof.
  intros [Hn Hk].
  rewrite <- (length_map byte_val), big_Bytes_vals by assumption.
  apply digits_length_le; [lia|assumption|assumption].
Qed.

Lemma big_SetBytes_cons c bs :
  big_SetBytes (c :: bs)
  = byte_val c * 256 ^ Z.of_nat (List.length bs) + big_SetBytes bs.
Proof.
  unfold big_SetBytes. cbn [map]. rewrite undigits_cons, length_map. reflexivity.
Qed.

(** The canonical form of a UUID: a hexadecimal digit, then 35 bytes. *)
Lemma uuid_String_head u :
  wf_uuid u ->
  exists c rest,
    bytes_of_string (uuid_String u) = c :: rest
    /\ List.length rest = 35%nat
    /\ 48 <= byte_val c <= 102.
Proof.
  intro H. apply wf_uuid_inv in H.
  destruct H as (b0 & b1 & b2 & b3 & b4 & b5 & b6 & b7 & b8 & b9 & b10 & b11
                 & b12 & b13 & b14 & b15 & ->).
  unfold uuid_String. rewrite bytes_of_string_of_bytes.
  cbn -[hex_digit byte_val Z.shiftr Z.land].
  eexists _, _. split; [reflexivity|]. split; [reflexivity|].
  destruct b0; vm_compute; split; discriminate.
Qed.

(** The integer that [Shorten] reads from the canonical form of a UUID
    has 36 bytes and starts with a hexadecimal digit. *)
Lemma uuid_String_value u :
  wf_uuid u ->
  48 * 256 ^ 35 <= big_SetBytes (bytes_of_string (uuid_String u)) < 103 * 256 ^ 35.
Proof.
  intro H. destruct (uuid_String_head u H) as (c & rest & -> & L & B).
  rewrite big_SetBytes_cons, L.
  pose proof (big_SetBytes_nonneg rest).
  pose proof (big_SetBytes_upper rest) as U. rewrite L in U.
  change (Z.of_nat 35) with 35 in *.
  assert (0 < 256 ^ 35) by (apply Z.pow_pos_nonneg; lia).
  nia.
Qed.

(** A string of at most 16 bytes is no UUID for [uuid.Parse]. *)
Lemma Parse_short bs :
  (List.length bs <= 16)%nat ->
  uuid_Parse (string_of_bytes bs) = inr (invalidLengthError (List.length bs)).
Proof.
  intro H. unfold uuid_Parse. rewrite bytes_of_string_of_bytes.
  repeat match goal with
         | |- context [(List.length bs =? ?k)%nat] =>
             replace (List.length bs =? k)%nat with false
               by (symmetry; apply Nat.eqb_neq; cbn; lia)
         end.
  reflexivity.
Qed.

End UuidLengthFacts.

Import UuidLengthFacts.

(** X7: in the second text of the package [ShortenUUID] never fails,
    and what it returns is a short ID of at most 22 symbols. *)
Theorem ShortenUUID_hex_short (u : Go.UUID) :
  wf_uuid u ->
  exists id,
    ShortuuidHex.ShortenUUID u = ShortuuidHex.Ok id
    /\ Spec.short_id id
    /\ (1 <= String.length id <= 22)%nat.
Proof.
  intro H. pose proof (UuidFacts.uuid_value_range u H) as [H0 H1].
  exists (intToBase (Spec.uuid_value u)).
  split; [apply HexPackageFacts.ShortenUUID_value; assumption|].
  pose proof (intToBase_short_id _ H0) as S.
  split; [exact S|]. split.
  - destruct S as (_ & Ne & _).
    destruct (intToBase (Spec.uuid_value u)); [congruence|cbn; lia].
  - apply intToBase_length_le; [assumption|lia|].
    eapply Z.lt_trans; [exact H1|]. reflexivity.
Qed.

Lemma ShortenUUID_hex_short_witness :
  wf_uuid sample_uuid
  /\ exists id,
       ShortuuidHex.ShortenUUID sample_uuid = ShortuuidHex.Ok id
       /\ Spec.short_id id
       /\ (1 <= String.length id <= 22)%nat.
Proof.
  split; [reflexivity|]. apply (ShortenUUID_hex_short sample_uuid). reflexivity.
Defined.

(** X8: [ShortenUUID] of [shortuuid.go] never fails, and what it returns
    is a short ID of 48 or 49 symbols: longer than the 36 characters of
    the UUID. *)
Theorem ShortenUUID_string_long (u : Go.UUID) :
  wf_uuid u ->
  exists id,
    ShortenUUID u = Ok id
    /\ Spec.short_id id
    /\ (48 <= String.length id <= 49)%nat.
Proof.
  intro H. pose proof (uuid_String_value u H) as [L U].
  set (n := big_SetBytes (bytes_of_string (uuid_String u))) in *.
  assert (Hn : 0 <= n) by apply big_SetBytes_nonneg.
  exists (intToBase n).
  split; [apply StringPathFacts.ShortenUUID_string; assumption|].
  split; [apply intToBase_short_id; assumption|]. split.
  - destruct (Nat.le_gt_cases 48 (String.length (intToBase n))) as [|Lt];
      [assumption|exfalso].
    assert (String.length (intToBase n) <= 47)%nat as Le by lia.
    apply intToBase_length_le in Le; [|assumption|lia].
    assert (62 ^ Z.of_nat 47 <= 48 * 256 ^ 35) by (vm_compute; discriminate).
    lia.
  - apply intToBase_length_le; [assumption|lia|].
    assert (103 * 256 ^ 35 <= 62 ^ Z.of_nat 49) by (vm_compute; discriminate).
    lia.
Qed.

Lemma ShortenUUID_string_long_witness :
  wf_uuid sample_uuid
  /\ exists id,
       ShortenUUID sample_uuid = Ok id
       /\ Spec.short_id id
       /\ (48 <= String.length id <= 49)%nat.
Proof.
  split; [reflexivity|]. apply (ShortenUUID_string_long sample_uuid). reflexivity.
Defined.

Section ExtraUuidWithQuote.

Variable Quote : string -> string.

(** X9: the two texts of the package do not read each other's IDs.
    [ExpandUUID] of [shortuuid.go] refuses what [ShortenUUID] of the
    second text returns, because it expands to at most 16 bytes, which
    [uuid.Parse] refuses for their length; [ExpandUUID] of the second
    text refuses what [ShortenUUID] of [shortuuid.go] returns, because
    it decodes to more than 32 hexadecimal digits. *)
Theorem ExpandUUID_refuses_other_text (u : Go.UUID) :
  wf_uuid u ->
  (exists id len,
      ShortuuidHex.ShortenUUID u = ShortuuidHex.Ok id
      /\ (len <= 16)%nat
      /\ ExpandUUID Quote id =
         Err (DecodeErr
                {| ShortID := id;
                   Reason := "failed to parse expanded UUID: invalid UUID length: "
                             ++ Sprintf_d (Z.of_nat len) |}))
  /\ (exists id len,
         ShortenUUID u = Ok id
         /\ (32 < len)%nat
         /\ ShortuuidHex.ExpandUUID Quote id =
            ShortuuidHex.Err
              (ShortuuidHex.DecodeErr
                 {| ShortuuidHex.ShortID := id;
                    ShortuuidHex.Reason :=
                      "decoded to invalid length: expected 32 hex characters, got "
                      ++ Sprintf_d (Z.of_nat len) |})).
Proof.
  intro H. split.
  - pose proof (UuidFacts.uuid_value_range u H) as [H0 H1].
    exists (intToBase (Spec.uuid_value u)),
           (List.length (big_Bytes (Spec.uuid_value u))).
    split; [apply HexPackageFacts.ShortenUUID_value; assumption|].
    assert (Le : (List.length (big_Bytes (Spec.uuid_value u)) <= 16)%nat)
      by (apply big_Bytes_length_le; split; assumption).
    split; [exact Le|].
    rewrite StringPathFacts.ExpandUUID_unfold. unfold Expand.
    rewrite CodecFacts.decode_intToBase by assumption.
    rewrite Parse_short by assumption. reflexivity.
  - pose proof (uuid_String_value u H) as [L U].
    set (n := big_SetBytes (bytes_of_string (uuid_String u))) in *.
    assert (Hn : 0 <= n) by apply big_SetBytes_nonneg.
    assert (Big : 2 ^ 128 <= n).
    { assert (2 ^ 128 <= 48 * 256 ^ 35) by (vm_compute; discriminate). lia. }
    exists (intToBase n), (String.length (Sprintf_0s 32 (big_Text n 16))).
    split; [apply StringPathFacts.ShortenUUID_string; assumption|].
    split.
    + destruct (Nat.le_gt_cases
                  (String.length (Sprintf_0s 32 (big_Text n 16))) 32) as [Le|];
        [exfalso|assumption].
      rewrite HexFacts.Sprintf_0s_text in Le by assumption.
      rewrite HexFacts.string_of_bytes_length, length_app, repeat_length in Le.
      assert (List.length (text16 n) <= 32)%nat as T by lia.
      apply HexFacts.text16_length_le in T; [|assumption|lia].
      change (16 ^ Z.of_nat 32) with (2 ^ 128) in T. lia.
    + apply HexPackageFacts.ExpandUUID_too_large; [|assumption].
      apply HexPackageFacts.hex_baseToInt_intToBase. assumption.
Qed.

(** X10: in the second text of the package, shortening the UUID that a
    short ID expands to gives the short ID back, for every short ID
    whose value is below [2 ^ 128]. *)
Theorem ShortenUUID_ExpandUUID_hex (id : string) :
  Spec.short_id id -> Spec.value id < 2 ^ 128 ->
  ShortuuidHex.and_then (ShortuuidHex.ExpandUUID Quote id) ShortuuidHex.ShortenUUID
  = ShortuuidHex.Ok id.
Proof.
  intros H Hv. pose proof (value_nonneg id) as H0.
  pose proof (intToBase_value id H) as V.
  destruct H as (Ha & _ & _).
  assert (B : ShortuuidHex.baseToInt id = ShortuuidHex.Ok (Spec.value id))
    by (apply HexPackageFacts.baseToInt_same, SymbolFacts.baseToInt_value; assumption).
  rewrite (HexPackageFacts.ExpandUUID_fits Quote id _ B Hv).
  cbn [ShortuuidHex.and_then].
  rewrite HexPackageFacts.ShortenUUID_value
    by (apply UuidFacts.be_bytes_length; split; assumption).
  unfold Spec.uuid_value. rewrite UuidFacts.be_bytes_value by assumption.
  rewrite HexPackageFacts.intToBase_same, V. reflexivity.
Qed.

(** X17: in the second text of the package [ExpandUUID] succeeds
    exactly on the strings of symbols whose value is below [2 ^ 128],
    and the UUID is then the 16 big-endian bytes of the value. *)
Theorem ExpandUUID_hex_accepts (s : string) :
  ((exists u, ShortuuidHex.ExpandUUID Quote s = ShortuuidHex.Ok u)
   <-> Spec.all_symbols s /\ Spec.value s < 2 ^ 128)
  /\ (forall u, ShortuuidHex.ExpandUUID Quote s = ShortuuidHex.Ok u ->
                u = be_bytes 16 (Spec.value s) /\ wf_uuid u).
Proof.
  assert (A : forall u, ShortuuidHex.ExpandUUID Quote s = ShortuuidHex.Ok u ->
                Spec.all_symbols s /\ Spec.value s < 2 ^ 128
                /\ u = be_bytes 16 (Spec.value s)).
  { intros u Hu.
    destruct (ShortuuidHex.baseToInt s) as [n|e] eqn:E.
    - pose proof (proj2 (HexPackageFacts.baseToInt_same s n) E) as E'.
      pose proof (SymbolFacts.baseToInt_all_symbols s n E') as Hs.
      rewrite (SymbolFacts.baseToInt_value s Hs) in E'. injection E' as <-.
      split; [exact Hs|].
      destruct (Z_lt_le_dec (Spec.value s) (2 ^ 128)) as [Lt|Ge].
      + split; [exact Lt|].
        rewrite (HexPackageFacts.ExpandUUID_fits Quote s _ E Lt) in Hu.
        injection Hu as <-. reflexivity.
      + rewrite (HexPackageFacts.ExpandUUID_too_large Quote s _ E Ge) in Hu.
        discriminate.
    - unfold ShortuuidHex.ExpandUUID, ShortuuidHex.decodeHex in Hu.
      rewrite E in Hu. discriminate. }
  split; [split|].
  - intros [u Hu]. destruct (A u Hu) as (H1 & H2 & _). split; assumption.
  - intros [Hs Hv]. exists (be_bytes 16 (Spec.value s)).
    apply HexPackageFacts.ExpandUUID_fits; [|assumption].
    apply HexPackageFacts.baseToInt_same, SymbolFacts.baseToInt_value. assumption.
  - intros u Hu. destruct (A u Hu) as (_ & Hv & ->). split; [reflexivity|].
    apply UuidFacts.be_bytes_length. split; [apply value_nonneg|assumption].
Qed.

End ExtraUuidWithQuote.

Lemma sample_short_id_is_short : Spec.short_id sample_short_id.
Proof.
  split; [reflexivity|]. split; [discriminate|]. intros rest E. discriminate E.
Qed.

Lemma ExpandUUID_refuses_other_text_witness :
  wf_uuid sample_uuid
  /\ ((exists id len,
          ShortuuidHex.ShortenUUID sample_uuid = ShortuuidHex.Ok id
          /\ (len <= 16)%nat
          /\ ExpandUUID plain_quote id =
             Err (DecodeErr
                    {| ShortID := id;
                       Reason := "failed to parse expanded UUID: invalid UUID length: "
                                 ++ Sprintf_d (Z.of_nat len) |}))
      /\ (exists id len,
             ShortenUUID sample_uuid = Ok id
             /\ (32 < len)%nat
             /\ ShortuuidHex.ExpandUUID plain_quote id =
                ShortuuidHex.Err
                  (ShortuuidHex.DecodeErr
                     {| ShortuuidHex.ShortID := id;
                        ShortuuidHex.Reason :=
                          "decoded to invalid length: expected 32 hex characters, got "
                          ++ Sprintf_d (Z.of_nat len) |}))).
Proof.
  split; [reflexivity|].
  apply (ExpandUUID_refuses_other_text plain_quote sample_uuid). reflexivity.
Defined.

Lemma ShortenUUID_ExpandUUID_hex_witness :
  Spec.short_id sample_short_id /\ Spec.value sample_short_id < 2 ^ 128
  /\ ShortuuidHex.and_then (ShortuuidHex.ExpandUUID plain_quote sample_short_id)
       ShortuuidHex.ShortenUUID
     = ShortuuidHex.Ok sample_short_id.
Proof.
  split; [exact sample_short_id_is_short|]. split; [reflexivity|].
  apply (ShortenUUID_ExpandUUID_hex plain_quote sample_short_id).
  - exact sample_short_id_is_short.
  - reflexivity.
Defined.

(** ** The string functions of the second text *)

(** X11: in the second text of the package too, [Expand(Shorten(s))] is
    [s] without its leading zero bytes, and the empty string is the only
    input that [Shorten] refuses, with an [EncodeError] that carries
    it. *)
Theorem hex_Expand_Shorten (s : string) :
  ShortuuidHex.and_then (ShortuuidHex.Shorten s) ShortuuidHex.Expand =
  if String.eqb s EmptyString
  then ShortuuidHex.Err
         (ShortuuidHex.EncodeErr
            {| ShortuuidHex.Input := s;
               ShortuuidHex.EncodeReason := "input string cannot be empty" |})
  else ShortuuidHex.Ok (Spec.strip_zero_bytes s).
Proof.
  unfold ShortuuidHex.Shorten, ShortuuidHex.encodeString.
  destruct (String.eqb s EmptyString); [reflexivity|].
  cbn [ShortuuidHex.and_then].
  unfold ShortuuidHex.Expand, ShortuuidHex.decodeString.
  rewrite HexPackageFacts.hex_baseToInt_intToBase by apply big_SetBytes_nonneg.
  rewrite big_Bytes_SetBytes, CodecFacts.strip_zero_bytes_bytes. reflexivity.
Qed.

(** X12: the two texts of the package expand the same short IDs to the
    same strings and shorten the same strings to the same short IDs;
    where [Expand] of the second text fails, its [DecodeError] carries
    the input and names the first rune outside the alphabet, in the
    wording of that text. *)
Theorem hex_string_codec_agrees (s : string) :
  (forall t, ShortuuidHex.Expand s = ShortuuidHex.Ok t <-> Expand s = Ok t)
  /\ (forall id, ShortuuidHex.Shorten s = ShortuuidHex.Ok id <-> Shorten s = Ok id)
  /\ ShortuuidHex.Expand s =
     match Spec.offending (runes_of_string s) with
     | Some c =>
         ShortuuidHex.Err
           (ShortuuidHex.DecodeErr
              {| ShortuuidHex.ShortID := s;
                 ShortuuidHex.Reason :=
                   "invalid character '" ++ Sprintf_c c
                   ++ "' in short ID (valid characters: 0-9, A-Z, a-z)" |})
     | None => ShortuuidHex.Ok (string_of_bytes (big_Bytes (Spec.value s)))
     end.
Proof.
  assert (E : ShortuuidHex.Expand s =
     match Spec.offending (runes_of_string s) with
     | Some c =>
         ShortuuidHex.Err
           (ShortuuidHex.DecodeErr
              {| ShortuuidHex.ShortID := s;
                 ShortuuidHex.Reason :=
                   "invalid character '" ++ Sprintf_c c
                   ++ "' in short ID (valid characters: 0-9, A-Z, a-z)" |})
     | None => ShortuuidHex.Ok (string_of_bytes (big_Bytes (Spec.value s)))
     end).
  { unfold ShortuuidHex.Expand, ShortuuidHex.decodeString, ShortuuidHex.baseToInt.
    rewrite HexPackageFacts.hex_baseToInt_loop_spec.
    destruct (Spec.offending (runes_of_string s)); reflexivity. }
  split; [|split; [|exact E]].
  - intro t. rewrite E. unfold Expand, decode, baseToInt.
    rewrite CodecFacts.baseToInt_loop_spec.
    destruct (Spec.offending (runes_of_string s)).
    + split; discriminate.
    + split; intro H; injection H as <-; reflexivity.
  - intro id. unfold ShortuuidHex.Shorten, ShortuuidHex.encodeString, Shorten, encode.
    destruct (String.eqb s EmptyString).
    + split; discriminate.
    + rewrite HexPackageFacts.intToBase_same.
      split; intro H; injection H as <-; reflexivity.
Qed.

(** ** Positions and lengths *)

(** X13: writing one string of symbols after another multiplies the
    value of the first by 62 for each symbol of the second and adds the
    value of the second. *)
Theorem baseToInt_append (s1 s2 : string) :
  Spec.all_symbols s1 -> Spec.all_symbols s2 ->
  baseToInt (s1 ++ s2)
  = Ok (Spec.value s1 * 62 ^ Z.of_nat (String.length s2) + Spec.value s2).
Proof.
  intros H1 H2.
  assert (H : Spec.all_symbols (s1 ++ s2)).
  { unfold Spec.all_symbols in *.
    rewrite bytes_of_string_app, forallb_app, H1, H2. reflexivity. }
  rewrite (baseToInt_value _ H). f_equal.
  unfold Spec.value. rewrite !accumulate_digits.
  destruct (all_symbols_runes _ H) as [E _].
  destruct (all_symbols_runes _ H1) as [E1 _].
  destruct (all_symbols_runes _ H2) as [E2 _].
  rewrite E, E1, E2, bytes_of_string_app, !map_app.
  unfold Radix.undigits at 1. rewrite horner_app, horner_shift.
  rewrite !length_map, <- string_length_bytes. reflexivity.
Qed.

Lemma baseToInt_append_witness :
  Spec.all_symbols "1" /\ Spec.all_symbols "00"
  /\ baseToInt ("1" ++ "00")
     = Ok (Spec.value "1" * 62 ^ Z.of_nat (String.length "00") + Spec.value "00").
Proof.
  split; [reflexivity|]. split; [reflexivity|].
  apply (baseToInt_append "1" "00"); reflexivity.
Defined.

(** X14: the short ID of [n] has at most [k] symbols exactly when
    [n < 62 ^ k]. *)
Theorem intToBase_symbol_count (n : Z) (k : nat) :
  0 <= n -> (0 < k)%nat ->
  ((String.length (intToBase n) <= k)%nat <-> n < 62 ^ Z.of_nat k).
Proof. apply intToBase_length_le. Qed.

Lemma intToBase_symbol_count_witness :
  0 <= 3844 /\ (0 < 2)%nat
  /\ ((String.length (intToBase 3844) <= 2)%nat <-> 3844 < 62 ^ Z.of_nat 2).
Proof.
  split; [lia|]. split; [lia|].
  apply (intToBase_symbol_count 3844 2); lia.
Defined.

(** X15: for a string whose first byte is not zero the short ID is never
    shorter than the string, and at most twice as long. *)
Theorem Shorten_length (s : string) :
  Spec.first_byte_nonzero s ->
  exists id,
    Shorten s = Ok id
    /\ (String.length s <= String.length id <= 2 * String.length s)%nat.
Proof.
  intro H.
  assert (Ne : s <> EmptyString) by (intros ->; exact H).
  set (bs := bytes_of_string s).
  set (n := big_SetBytes bs).
  exists (intToBase n).
  split; [unfold Shorten; apply CodecFacts.encode_nonempty; assumption|].
  assert (Hn : 0 <= n) by apply big_SetBytes_nonneg.
  rewrite string_length_bytes. fold bs.
  assert (Lb : (0 < List.length bs)%nat).
  { subst bs. destruct s; [congruence|].
    rewrite CodecFacts.bytes_of_String. cbn. lia. }
  assert (Lo : 256 ^ Z.of_nat (List.length bs - 1) <= n).
  { pose proof (big_Bytes_SetBytes bs) as B. fold n in B.
    assert (S : strip_zeros bs = bs).
    { subst bs. rewrite <- bytes_strip_zero_bytes.
      rewrite CodecFacts.strip_first_nonzero by assumption. reflexivity. }
    rewrite S in B.
    assert (V : map byte_val bs = Radix.digits 256 n)
      by (rewrite <- B; apply UuidFacts.big_Bytes_vals; assumption).
    pose proof (digits_canonical 256 ltac:(lia) n Hn) as C.
    rewrite <- V in C.
    pose proof (canonical_lower 256 ltac:(lia) _ C) as Q.
    rewrite length_map in Q. unfold n, big_SetBytes. apply Q.
    intro X. apply map_eq_nil in X. rewrite X in Lb. cbn in Lb. lia. }
  split.
  - destruct (Nat.le_gt_cases (List.length bs) (String.length (intToBase n)))
      as [|Lt]; [assumption|exfalso].
    assert (Le : (String.length (intToBase n) <= List.length bs - 1)%nat) by lia.
    assert (K : (0 < List.length bs - 1)%nat).
    { pose proof (ShortIdFacts.intToBase_nonempty n Hn).
      destruct (intToBase n); [congruence|cbn in *; lia]. }
    apply intToBase_length_le in Le; [|assumption|assumption].
    assert (62 ^ Z.of_nat (List.length bs - 1) <= 256 ^ Z.of_nat (List.length bs - 1))
      by (apply Z.pow_le_mono_l; lia).
    lia.
  - apply intToBase_length_le; [assumption|lia|].
    pose proof (UuidFacts.big_SetBytes_upper bs) as U. fold n in U.
    eapply Z.lt_le_trans; [exact U|].
    rewrite Nat2Z.inj_mul, Z.pow_mul_r by lia.
    change (62 ^ Z.of_nat 2) with 3844. apply Z.pow_le_mono_l. lia.
Qed.

Lemma Shorten_length_witness :
  Spec.first_byte_nonzero "hello world"
  /\ exists id,
       Shorten "hello world" = Ok id
       /\ (String.length "hello world" <= String.length id
           <= 2 * String.length "hello world")%nat.
Proof.
  split; [discriminate|]. apply (Shorten_length "hello world"). discriminate.
Defined.

Section ExtraParseWithQuote.

Variable Quote : string -> string.

(** X16: [ExpandUUID] after [Shorten] is [uuid.Parse]: for a string
    that is not empty, expanding its short ID to a UUID gives what
    [uuid.Parse] gives for the string without its leading zero bytes, a
    failure of [uuid.Parse] being a [DecodeError] with the short ID. *)
Theorem ExpandUUID_Shorten_parses (s : string) :
  s <> EmptyString ->
  exists id,
    Shorten s = Ok id
    /\ ExpandUUID Quote id =
       match uuid_Parse (Spec.strip_zero_bytes s) with
       | inl u => Ok u
       | inr err =>
           Err (DecodeErr
                  {| ShortID := id;
                     Reason := "failed to parse expanded UUID: "
                               ++ uuid_Error Quote err |})
       end.
Proof.
  intro H. pose proof (CodecFacts.Expand_Shorten s H) as R.
  destruct (Shorten s) as [id|e]; [|discriminate].
  exists id. split; [reflexivity|]. cbn [and_then] in R.
  rewrite StringPathFacts.ExpandUUID_unfold, R. reflexivity.
Qed.

End ExtraParseWithQuote.

Lemma ExpandUUID_Shorten_parses_witness :
  "{4890586E-32A5-4F9C-A000-2A2BB68EB1CE}"%string <> EmptyString
  /\ exists id,
       Shorten "{4890586E-32A5-4F9C-A000-2A2BB68EB1CE}" = Ok id
       /\ ExpandUUID plain_quote id =
          match uuid_Parse
                  (Spec.strip_zero_bytes "{4890586E-32A5-4F9C-A000-2A2BB68EB1CE}")
          with
          | inl u => Ok u
          | inr err =>
              Err (DecodeErr
                     {| ShortID := id;
                        Reason := "failed to parse expanded UUID: "
                                  ++ uuid_Error plain_quote err |})
          end.
Proof.
  split; [discriminate|].
  apply (ExpandUUID_Shorten_parses plain_quote
           "{4890586E-32A5-4F9C-A000-2A2BB68EB1CE}").
  discriminate.
Defined.

(** The braced upper-case form of the sample UUID, through [Shorten]
    and [ExpandUUID], computed. *)
Example ExpandUUID_braced_upper_case :
  and_then (Shorten "{4890586E-32A5-4F9C-A000-2A2BB68EB1CE}")
    (ExpandUUID plain_quote)
  = Ok sample_uuid.
Proof. vm_compute. reflexivity. Qed.

(** ** Messages, and UUIDs that differ *)

(** X18: an error of [Shorten] has one possible message, in each text
    of the package: the input between the quotes is always empty. *)
Theorem Shorten_error_message (input : string) :
  (forall e, Shorten input = Err (EncodeErr e) ->
     EncodeError_Error e
     = "encode error for UUID '': input string cannot be empty"%string)
  /\ (forall e, ShortuuidHex.Shorten input = ShortuuidHex.Err (ShortuuidHex.EncodeErr e) ->
        ShortuuidHex.EncodeError_Error e
        = "encode error for input '': input string cannot be empty"%string).
Proof.
  unfold Shorten, encode, ShortuuidHex.Shorten, ShortuuidHex.encodeString.
  destruct (String.eqb_spec input EmptyString) as [->|N].
  - split; intros e H; injection H as <-; reflexivity.
  - split; intros e H; discriminate H.
Qed.

(** X19: two UUIDs that differ never get the same short ID, in either
    text of the package. *)
Theorem ShortenUUID_injective (u1 u2 : Go.UUID) :
  wf_uuid u1 -> wf_uuid u2 ->
  (ShortenUUID u1 = ShortenUUID u2 -> u1 = u2)
  /\ (ShortuuidHex.ShortenUUID u1 = ShortuuidHex.ShortenUUID u2 -> u1 = u2).
Proof.
  intros H1 H2. split; intro E.
  - pose proof (StringPathFacts.ExpandUUID_ShortenUUID plain_quote u1 H1) as R1.
    pose proof (StringPathFacts.ExpandUUID_ShortenUUID plain_quote u2 H2) as R2.
    rewrite E, R2 in R1. injection R1 as R1. symmetry. exact R1.
  - rewrite !HexPackageFacts.ShortenUUID_value in E by assumption.
    injection E as E. rewrite !HexPackageFacts.intToBase_same in E.
    pose proof (UuidFacts.uuid_value_range u1 H1) as [P1 _].
    pose proof (UuidFacts.uuid_value_range u2 H2) as [P2 _].
    apply (f_equal Spec.value) in E.
    rewrite !value_intToBase in E by assumption.
    unfold Spec.uuid_value in E.
    rewrite <- (UuidFacts.be_bytes_SetBytes u1), <- (UuidFacts.be_bytes_SetBytes u2).
    unfold wf_uuid in *. rewrite H1, H2, E. reflexivity.
Qed.

Lemma ShortenUUID_injective_witness :
  wf_uuid sample_uuid /\ wf_uuid Go.Nil
  /\ ((ShortenUUID sample_uuid = ShortenUUID Go.Nil -> sample_uuid = Go.Nil)
      /\ (ShortuuidHex.ShortenUUID sample_uuid = ShortuuidHex.ShortenUUID Go.Nil ->
          sample_uuid = Go.Nil)).
Proof.
  split; [reflexivity|]. split; [reflexivity|].
  apply (ShortenUUID_injective sample_uuid Go.Nil); reflexivity.
Defined.
